(** * creative-report: weighted allocation of metric totals, and CSV export

    A shallow embedding of the two source variants of the creative
    distributor:

    - [Page]            : src/app/page.tsx
                          ([generateWeights], [distribute], [creatives],
                           [exportCsv]);
    - [DistributorPage] : src/unnamed/part_000
                          ([generateWeights], [distributeIntegerTotal], [toCSV],
                           [handleGenerate]).

    Modelling choices.

    - JavaScript numbers are reached through the interface [JSNumber].  Its
      instance for the code as it runs is IEEE-754 binary64 (primitive
      floats); exact rational arithmetic ([Q]) is a second instance, the
      arithmetic in which the algorithms are usually explained.  The
      properties are proved for every instance, under the stated conditions
      on the numbers involved, or evaluated on both; one is proved in exact
      arithmetic.  [Math.floor] and [Math.round] are modelled on finite
      numbers: the properties that speak of their values assume that the
      raw shares are finite ([num_finite]), neither NaN nor an infinity.
    - Counts and metric totals are integers ([Z]), and the allocated shares
      are integer-valued Numbers, carried as integers: each is a value of
      [Math.floor] or [Math.round], or comes from such values and the total
      by additions and subtractions.  Those are additions and subtractions
      of Numbers: their result is the Number nearest to the exact one
      ([num_int]), which is the exact one up to 2^53 in binary64, and always
      in [Q].
    - [Math.random] is an oracle with explicit state ([JSMath]); [Math.log]
      is a parameter.
    - Arrays are lists; [for] loops are folds over the indices, the [while]
      loop is defined by well-founded recursion on its variant.
    - Strings are sequences of 8-bit characters. *)

From Stdlib Require Import ZArith QArith Qround Floats Lia Lqa Ascii.
From Equations Require Import Equations.
From stdpp Require Import base list sorting strings pretty.

Local Open Scope Z_scope.

(** ** JavaScript numbers *)

Class JSNumber (num : Type) : Type := {
  (** the number denoted by an integer *)
  num_of_Z : Z → num;
  (** the number denoted by a decimal literal such as [0.2] or [1e-9] *)
  num_lit : Q → num;
  num_add : num → num → num;
  num_sub : num → num → num;
  num_mul : num → num → num;
  num_div : num → num → num;
  (** unary minus *)
  num_neg : num → num;
  (** [a <= b] *)
  num_leb : num → num → bool;
  (** [Number.isFinite]: neither NaN nor an infinity *)
  num_finite : num → bool;
  (** [Math.floor] and [Math.round] on a finite number; their values are
      integers *)
  Math_floor : num → Z;
  Math_round : num → Z;
  (** the integer-valued Number nearest to an integer: the value of
      [a + b] and [a - b] on integer-valued Numbers whose exact sum or
      difference is that integer *)
  num_int : Z → Z
}.

(** [a + b] and [a - b] on integer-valued Numbers. *)
Definition int_add {num} `{JSNumber num} (a b : Z) : Z := num_int (a + b).
Definition int_sub {num} `{JSNumber num} (a b : Z) : Z := num_int (a - b).

(** Additions and subtractions of integer-valued Numbers are exact as long
    as their exact result is [safe]. *)
Definition exact_on {num} `{JSNumber num} (safe : Z → Prop) : Prop :=
  ∀ z, safe z → num_int z = z.

(** A range of integers without gaps. *)
Definition convex (safe : Z → Prop) : Prop :=
  ∀ a b z, safe a → safe b → a ≤ z ≤ b → safe z.

(** The integers from -2^53 to 2^53, which binary64 represents one by one. *)
Definition within_2_53 (z : Z) : Prop := - 2 ^ 53 ≤ z ≤ 2 ^ 53.

(** The ambient [Math] object: the pseudo-random generator, whose hidden
    state is threaded explicitly, and the natural logarithm. *)
Class JSMath (num : Type) : Type := {
  rng : Type;
  Math_random : rng → num * rng;
  Math_log : num → num
}.

(** Exact arithmetic.  [Math.round] rounds to the nearest integer, ties
    towards +infinity. *)
#[export] Instance Q_JSNumber : JSNumber Q := {|
  num_of_Z := inject_Z;
  num_lit := λ q, q;
  num_add := Qplus;
  num_sub := Qminus;
  num_mul := Qmult;
  num_div := Qdiv;
  num_neg := Qopp;
  num_leb := Qle_bool;
  num_finite := λ _, true;
  Math_floor := Qfloor;
  Math_round := λ x, Qfloor (x + (1 # 2))%Q;
  num_int := λ z, z
|}.

(** Binary64.  A finite double is the rational [(-1)^s * m * 2^e]. *)
Definition float_to_Q (f : float) : Q :=
  match Prim2SF f with
  | S754_finite s m e =>
      let n := if s then Z.neg m else Z.pos m in
      match e with
      | Z.neg p => n # (2 ^ p)%positive
      | _ => (n * 2 ^ e) # 1
      end
  | _ => 0%Q
  end.

(** The double nearest to an integer (round to nearest, ties to even). *)
Definition float_of_Z (z : Z) : float :=
  SF2Prim (binary_normalize prec emax z 0 false).

(** A decimal literal [n/d] denotes the double nearest to it; division of two
    exactly represented integers is correctly rounded. *)
Definition float_lit (q : Q) : float :=
  PrimFloat.div (float_of_Z (Qnum q)) (float_of_Z (Z.pos (Qden q))).

(** The integer-valued double nearest to an integer: the integer itself up
    to 2^53 in absolute value; beyond, the integer rounded to 53 significant
    bits, ties to the even significand.  (The overflow to an infinity past
    2^1024 is not modelled.) *)
Definition binary64_int (z : Z) : Z :=
  if Z.abs z <=? 2 ^ 53 then z
  else
    let e := Z.log2 (Z.abs z) - 52 in
    let q := Z.abs z / 2 ^ e in
    let r := Z.abs z mod 2 ^ e in
    let q := if (2 ^ (e - 1) <? r) || ((2 ^ (e - 1) =? r) && Z.odd q)
             then q + 1 else q in
    Z.sgn z * (q * 2 ^ e).

#[export] Instance binary64_JSNumber : JSNumber float := {|
  num_of_Z := float_of_Z;
  num_lit := float_lit;
  num_add := PrimFloat.add;
  num_sub := PrimFloat.sub;
  num_mul := PrimFloat.mul;
  num_div := PrimFloat.div;
  num_neg := PrimFloat.opp;
  num_leb := PrimFloat.leb;
  num_finite := PrimFloat.is_finite;
  Math_floor := λ x, Qfloor (float_to_Q x);
  Math_round := λ x, Qfloor (float_to_Q x + (1 # 2))%Q;
  num_int := binary64_int
|}.

(** A replayed sequence of draws as the random source: [Math.random()] pops
    the next draw (and yields [0] once the sequence is exhausted). *)
Definition replay_JSMath {num} `{JSNumber num} (log : num → num) : JSMath num := {|
  rng := list num;
  Math_random := λ s, (default (num_lit 0) (head s), tail s);
  Math_log := log
|}.

(** ** Shared array helpers *)

(** The exact sum of an array of integers. *)
Definition sumZ (xs : list Z) : Z := foldl Z.add 0 xs.

(** [xs.reduce((a, b) => a + b, 0)] on an array of integer-valued Numbers. *)
Definition sum_int {num} `{JSNumber num} (xs : list Z) : Z := foldl int_add 0 xs.

(** [xs.reduce((a, b) => a + b, 0)] on an array of numbers. *)
Definition sum_num {num} `{JSNumber num} (xs : list num) : num :=
  foldl num_add (num_lit 0) xs.

(** [Array.prototype.sort(cmp)]: a stable sort.  [a] stays in front of a
    later element [b] unless [cmp(a, b) > 0].  For a comparator that is
    a total preorder every stable sort returns this same array. *)
Section sort.
Context {num} `{JSNumber num} {A : Type} (cmp : A → A → num).

Fixpoint sort_insert (a : A) (l : list A) : list A :=
  match l with
  | [] => [a]
  | b :: l' =>
      if num_leb (cmp a b) (num_lit 0) then a :: b :: l'
      else b :: sort_insert a l'
  end.

Definition array_sort (l : list A) : list A := foldr sort_insert [] l.
End sort.

(** ** Strings and comma-separated text *)

Definition dquote : ascii := "034"%char.
Definition comma : ascii := ","%char.
Definition newline : ascii := "010"%char.

(** A value that is a string or a number; the numbers that reach the export
    are integer-valued. *)
Inductive cell := Str (s : string) | Num (n : Z).

(** The shortest decimal significand that denotes the Number [v], which has
    [nd] decimal digits: the least [k], from [k] on, and [s] below [10^k]
    such that [s * 10^(nd - k)] rounds to [v]; of two such [s] the one
    nearer to [v].  The result is the pair of [s] and [k]. *)
Fixpoint shortest_significand (fuel : nat) (k nd v : Z) : Z * Z :=
  match fuel with
  | O => (v, nd)
  | S fuel' =>
      let p := 10 ^ (nd - k) in
      let lo := v / p in
      let hi := lo + 1 in
      let ok_lo := binary64_int (lo * p) =? v in
      let ok_hi := binary64_int (hi * p) =? v in
      if ok_lo && ok_hi then ((if v - lo * p <=? hi * p - v then lo else hi), k)
      else if ok_lo then (lo, k)
      else if ok_hi then (hi, k)
      else shortest_significand fuel' (k + 1) nd v
  end.

(** [String(v)] on a non-negative integer-valued Number: the decimal
    digits below 10^21, and from there on the shortest significand, a point
    after its first digit if it has more than one, and the decimal exponent,
    as in [1e+21] and [1.5e+21]. *)
Definition Number_toString_nonneg (v : Z) : string :=
  if v <? 10 ^ 21 then pretty v
  else
    let nd := Z.of_nat (String.length (pretty v)) in
    let '(s, k) := shortest_significand 17 1 nd v in
    if s =? 10 ^ k then "1e+" +:+ pretty nd
    else
      match pretty s with
      | String d EmptyString => String d ("e+" +:+ pretty (nd - 1))
      | String d ds => String d ("." +:+ ds +:+ "e+" +:+ pretty (nd - 1))
      | EmptyString => EmptyString
      end.

Definition Number_toString (n : Z) : string :=
  if n <? 0 then "-" +:+ Number_toString_nonneg (- n)
  else Number_toString_nonneg n.

(** [String(v)] *)
Definition String_of (v : cell) : string :=
  match v with
  | Str s => s
  | Num n => Number_toString n
  end.

(** [s.includes(c)] for a one-character needle. *)
Fixpoint includes (s : string) (c : ascii) : bool :=
  match s with
  | EmptyString => false
  | String a s' => bool_decide (a = c) || includes s' c
  end.

(** [s.replace] of every double quote (the global pattern) by two double
    quotes. *)
Fixpoint replace_quotes (s : string) : string :=
  match s with
  | EmptyString => EmptyString
  | String a s' =>
      if bool_decide (a = dquote) then String dquote (String dquote (replace_quotes s'))
      else String a (replace_quotes s')
  end.

(** [xs.join(sep)] for a one-character separator. *)
Fixpoint join (sep : ascii) (xs : list string) : string :=
  match xs with
  | [] => EmptyString
  | [x] => x
  | x :: xs' => x +:+ String sep (join sep xs')
  end.

(** The quoting both exports apply to a stringified value. *)
Definition quote_field (s : string) : string :=
  if includes s dquote || includes s comma || includes s newline
  then String dquote (replace_quotes s +:+ String dquote EmptyString)
  else s.

(** ** src/unnamed/part_000 *)

Module DistributorPage.

Inductive DistributionStyle := balanced | moderate | high.

Section core.
Context {num : Type} `{JSNumber num}.

(** One pass of the loop body of [generateWeights]: draw [w] for the
    style, clamp a non-positive draw, and push it. *)
Definition draw_weight {MATH : JSMath num} (style : DistributionStyle)
    (st : list num * rng) : list num * rng :=
  let '(raw, s) := st in
  let '(w, s') :=
    match style with
    | balanced =>
        let '(r, s') := Math_random s in
        let noise := num_mul (num_sub r (num_lit (5 # 10))) (num_lit (2 # 10)) in
        (num_add (num_lit 1) noise, s')
    | moderate =>
        let '(r, s') := Math_random s in
        (num_add (num_lit (5 # 10)) r, s')
    | high =>
        let '(u, s') := Math_random s in
        (num_neg (Math_log (num_add u (num_lit (1 # 1000000000)))), s')
    end in
  let w := if num_leb w (num_lit 0) then num_lit (1 # 10000) else w in
  (raw ++ [w], s').

Definition generateWeights {MATH : JSMath num} (count : Z) (style : DistributionStyle)
    (s : rng) : list num * rng :=
  if count <=? 0 then ([], s)
  else
    let '(raw, s') :=
      foldl (λ st (_ : nat), draw_weight style st) ([], s)
            (seq 0 (Z.to_nat count)) in
    let sum := sum_num raw in
    (map (λ v, num_div v sum) raw, s').

(** An entry of the array [frac]. *)
Record frac_entry := { idx : nat; frac : num }.

(** The state of the awarding loop: [result], [remainder] and [i]. *)
Record award_state := { result : list Z; remainder : Z; i : nat }.

(** [while (remainder > 0 && i < frac.length)
       { result[frac[i].idx] += 1; remainder--; i++; }]
    The loop is defined by recursion on the distance of [i] to
    [frac.length], which every iteration decreases. *)
Equations? award (fr : list frac_entry) (st : award_state) : award_state
  by wf (length fr - i st)%nat lt :=
award fr st with decide (0 < remainder st ∧ (i st < length fr)%nat) := {
  | left Hc =>
      award fr {| result := alter (λ r, int_add r 1)
                                  (from_option idx 0%nat (fr !! i st)) (result st);
                  remainder := int_sub (remainder st) 1;
                  i := S (i st) |}
  | right _ => st
}.
Proof. simpl. lia. Qed.

Definition distributeIntegerTotal (total : Z) (weights : list num) : list Z :=
  if (total <=? 0) || (length weights =? 0)%nat then map (λ _, 0) weights
  else
    let rawValues := map (λ w, num_mul w (num_of_Z total)) weights in
    let floors := map Math_floor rawValues in
    let assigned := sum_int floors in
    let remainder := int_sub total assigned in
    (* [fracs] is the array [frac] of the source, named apart from its
       field [frac] *)
    let fracs := imap (λ idx v,
                    {| idx := idx;
                       frac := num_sub v (num_of_Z (default 0 (floors !! idx))) |})
                  rawValues in
    let fracs := array_sort (λ a b, num_sub (frac b) (frac a)) fracs in
    result (award fracs {| result := floors; remainder := remainder; i := 0 |}).
End core.

Record CreativeRow := {
  id : Z;
  impressions : Z;
  installs : Z;
  paidEvents : Z
}.

Definition headers : list string :=
  ["creative_id"; "impressions"; "installs"; "paid_events"]%string.



(** A number typed into the page: finite, or one of the three values that
    [Number.isFinite] rejects. *)
Inductive number := Finite (q : Q) | Infinity | NegInfinity | NaN.

Definition Number_isFinite (x : number) : bool :=
  match x with Finite _ => true | _ => false end.

Definition Number_isInteger (x : number) : bool :=
  match x with
  | Finite q => Qeq_bool (inject_Z (Qfloor q)) q
  | _ => false
  end.

(** [x <= 0] *)
Definition number_le0 (x : number) : bool :=
  match x with
  | Finite q => Qle_bool q 0
  | NegInfinity => true
  | _ => false
  end.

(** The integer a number denotes, once it has passed [Number.isInteger]. *)
Definition number_to_Z (x : number) : Z :=
  match x with Finite q => Qfloor q | _ => 0 end.

(** The part of the component state that [handleGenerate] writes. *)
Record page_state := { rows : list CreativeRow; error : option string }.

Section page.
Context {num : Type} {NUM : JSNumber num} {MATH : JSMath num}.

(** [handleGenerate], on the inputs it closes over.  The count is any
    number.  The totals are integers: that is the domain of the allocator
    in this development; the handler itself turns away negative totals only,
    and what it does with a total that has a fraction is outside it. *)
Definition handleGenerate (creativeCount : number)
    (totalImpressions totalInstalls totalPaidEvents : Z)
    (style : DistributionStyle) (st : page_state) (s : rng) : page_state * rng :=
  let st := {| rows := rows st; error := None |} in
  if negb (Number_isFinite creativeCount) || number_le0 creativeCount
     || negb (Number_isInteger creativeCount) then
    ({| rows := rows st;
        error := Some "Number of creatives must be a positive integer."%string |}, s)
  else if (totalImpressions <? 0) || (totalInstalls <? 0) || (totalPaidEvents <? 0) then
    ({| rows := rows st; error := Some "Totals cannot be negative."%string |}, s)
  else
    let '(weights, s') := generateWeights (number_to_Z creativeCount) style s in
    let impressionsDist := distributeIntegerTotal totalImpressions weights in
    let installsDist := distributeIntegerTotal totalInstalls weights in
    let eventsDist := distributeIntegerTotal totalPaidEvents weights in
    let generated :=
      foldl (λ generated (i : nat),
               generated ++ [{| id := Z.of_nat i + 1;
                                impressions := default 0 (impressionsDist !! i);
                                installs := default 0 (installsDist !! i);
                                paidEvents := default 0 (eventsDist !! i) |}])
            [] (seq 0 (Z.to_nat (number_to_Z creativeCount))) in
    ({| rows := generated; error := error st |}, s').
End page.

End DistributorPage.


(** ** src/app/page.tsx *)

Module Page.

Inductive VarianceLevel := balanced | medium | high.

Record CreativeRow := {
  index : Z;
  name : string;
  impressions : Z;
  clicks : Z;
  installs : Z;
  primaryEvents : Z;
  secondaryEvents : Z
}.

Section core.
Context {num : Type} `{JSNumber num}.

Definition generateWeights {MATH : JSMath num} (count : Z) (variance : VarianceLevel)
    (s : rng) : list num * rng :=
  if count <=? 0 then ([], s)
  else
    let factor :=
      match variance with
      | balanced => num_lit (2 # 10)
      | medium => num_lit 1
      | high => num_lit 3
      end in
    let '(weights, s') :=
      foldl (λ '(weights, s) (_ : nat),
               let '(r, s') := Math_random s in
               let w := num_add (num_lit 1) (num_mul r factor) in
               (weights ++ [w], s'))
            ([], s) (seq 0 (Z.to_nat count)) in
    let sum := sum_num weights in
    (map (λ w, num_div w sum) weights, s').

(** The body of the [for] loop of [distribute], on the pair of [result]
    and [remaining].  An index past the end of [weights] does not occur:
    the loop runs [i] below [weights.length]. *)
Definition distribute_step (total : Z) (weights : list num)
    (st : list Z * Z) (i : nat) : list Z * Z :=
  let '(result, remaining) := st in
  if bool_decide (i = (length weights - 1)%nat) then
    (<[i := remaining]> result, remaining)
  else
    let raw := num_mul (num_of_Z total) (default (num_lit 0) (weights !! i)) in
    let value := Math_round raw in
    (<[i := value]> result, int_sub remaining value).

Definition distribute (total : Z) (weights : list num) : list Z :=
  if (total <=? 0) || (length weights =? 0)%nat then replicate (length weights) 0
  else
    let result := replicate (length weights) 0 in
    let remaining := total in
    fst (foldl (distribute_step total weights) (result, remaining)
               (seq 0 (length weights))).

(** The memoised [creatives] of the page: one weight vector, reused for
    every metric.  The count and the totals are integers: the page state can
    also hold a number with a fraction, for which [Array(n)] throws or
    [Array.from] cuts the table short; that is outside this definition. *)
Definition creatives {MATH : JSMath num} (creativeCount : Z)
    (totalImpressions totalClicks totalInstalls
     totalPrimaryEvents totalSecondaryEvents : Z)
    (variance : VarianceLevel) (secondaryEventEnabled : bool)
    (s : rng) : list CreativeRow * rng :=
  let n := Z.max 0 creativeCount in
  let '(weights, s') := generateWeights n variance s in
  let impressionsDist := distribute totalImpressions weights in
  let clicksDist := distribute totalClicks weights in
  let installsDist := distribute totalInstalls weights in
  let primaryEventsDist := distribute totalPrimaryEvents weights in
  let secondaryEventsDist :=
    if secondaryEventEnabled then distribute totalSecondaryEvents weights
    else replicate (Z.to_nat n) 0 in
  (map (λ i : nat,
          {| index := Z.of_nat i + 1;
             name := "Creative " +:+ pretty (Z.of_nat i + 1);
             impressions := default 0 (impressionsDist !! i);
             clicks := default 0 (clicksDist !! i);
             installs := default 0 (installsDist !! i);
             primaryEvents := default 0 (primaryEventsDist !! i);
             secondaryEvents := default 0 (secondaryEventsDist !! i) |})
       (seq 0 (Z.to_nat n)), s').
End core.

(** [[...].filter(Boolean)] on the header labels: [undefined] and the
    empty string are dropped. *)
Definition filter_Boolean (xs : list (option string)) : list string :=
  omap (λ x, match x with
             | Some s => if bool_decide (s = EmptyString) then None else Some s
             | None => None
             end) xs.

(** The text [exportCsv] hands to the download; [None] when it returns
    early on an empty table. *)
Definition exportCsv (creatives : list CreativeRow)
    (primaryEventLabel secondaryEventLabel : string)
    (secondaryEventEnabled : bool) : option string :=
  if bool_decide (length creatives = 0%nat) then None
  else
    let headers :=
      filter_Boolean
        [Some "Creative"; Some "Impressions"; Some "Clicks"; Some "Installs";
         Some primaryEventLabel;
         if secondaryEventEnabled then Some secondaryEventLabel else None]%string in
    let lines := [join comma headers] in
    let lines :=
      foldl (λ lines row,
               let cols := [Str (name row); Num (impressions row); Num (clicks row);
                            Num (installs row); Num (primaryEvents row)] in
               let cols := if secondaryEventEnabled
                           then cols ++ [Num (secondaryEvents row)] else cols in
               lines ++ [join comma (map (λ v, quote_field (String_of v)) cols)])
            lines creatives in
    Some (join newline lines).

End Page.

(** ** A standard reader of comma-separated text *)

(** The reader against which the exported text is checked.  It is not code
    of the repository: the spec appeals to a standard parser, and this one
    follows RFC 4180 with the line feed as record separator.  A field that
    starts with a double quote runs to its closing quote, a doubled quote
    inside it standing for one quote; any other field runs to the next comma
    or line feed. *)
Module Csv.

Inductive mode :=
| FieldStart   (* at the first character of a field *)
| Unquoted     (* inside a field that did not start with a quote *)
| Quoted       (* inside a quoted field *)
| QuoteSeen.   (* just after a quote inside a quoted field *)

(** [field] and [row] are the field and the record being read, [rows] the
    finished records; all three grow at the end. *)
Fixpoint read (m : mode) (field : string) (row : list string)
    (rows : list (list string)) (s : string) : list (list string) :=
  match s with
  | EmptyString => rows ++ [row ++ [field]]
  | String c s' =>
      match m with
      | Quoted =>
          if bool_decide (c = dquote) then read QuoteSeen field row rows s'
          else read Quoted (field +:+ String c EmptyString) row rows s'
      | _ =>
          if bool_decide (c = comma) then
            read FieldStart EmptyString (row ++ [field]) rows s'
          else if bool_decide (c = newline) then
            read FieldStart EmptyString [] (rows ++ [row ++ [field]]) s'
          else if bool_decide (c = dquote) then
            match m with
            | FieldStart => read Quoted field row rows s'
            | QuoteSeen => read Quoted (field +:+ String c EmptyString) row rows s'
            | _ => read Unquoted (field +:+ String c EmptyString) row rows s'
            end
          else read Unquoted (field +:+ String c EmptyString) row rows s'
      end
  end.

Definition parse (s : string) : list (list string) :=
  read FieldStart EmptyString [] [] s.

End Csv.

(** ** Auxiliary definitions for the statements *)

Section aux.
Context {num : Type} `{JSNumber num}.

(** The number of passes through the body of the awarding loop. *)
Definition award_passes (fr : list (DistributorPage.frac_entry (num:=num)))
    (st : DistributorPage.award_state) : nat :=
  Nat.min (Z.to_nat (DistributorPage.remainder st))
          (length fr - DistributorPage.i st).

(** The entries of [frac] the loop visits get one unit each, in turn. *)
Definition award_units (result : list Z)
    (visited : list (DistributorPage.frac_entry (num:=num))) : list Z :=
  foldl (λ r e, alter (λ x, int_add x 1) (DistributorPage.idx e) r) result visited.

(** [floors] of [distributeIntegerTotal]. *)
Definition floors_of (total : Z) (weights : list num) : list Z :=
  map Math_floor (map (λ w, num_mul w (num_of_Z total)) weights).

(** The array [frac] of [distributeIntegerTotal], before and after the sort. *)
Definition fracs_of (total : Z) (weights : list num)
    : list (DistributorPage.frac_entry (num:=num)) :=
  imap (λ idx v,
          {| DistributorPage.idx := idx;
             DistributorPage.frac :=
               num_sub v (num_of_Z (default 0 (floors_of total weights !! idx))) |})
       (map (λ w, num_mul w (num_of_Z total)) weights).

Definition sorted_fracs_of (total : Z) (weights : list num)
    : list (DistributorPage.frac_entry (num:=num)) :=
  array_sort (λ a b, num_sub (DistributorPage.frac b) (DistributorPage.frac a))
             (fracs_of total weights).

(** The rounded shares [distribute] gives to the buckets before the last. *)
Definition rounded_shares (total : Z) (weights : list num) : list Z :=
  map (λ w, Math_round (num_mul (num_of_Z total) w)) weights.

(** What is left of the pool [remaining] of [distribute] once the shares
    have been subtracted from it in turn. *)
Definition pool_left (total : Z) (shares : list Z) : Z :=
  foldl int_sub total shares.

(** The raw shares [w * total] of [distributeIntegerTotal] are finite, and
    their floors are non-negative with a sum of at most 2^53. *)
Definition floors_within (total : Z) (weights : list num) : Prop :=
  Forall (λ w, num_finite (num_mul w (num_of_Z total)) = true) weights
  ∧ Forall (λ f, 0 ≤ f) (floors_of total weights)
  ∧ sumZ (floors_of total weights) ≤ 2 ^ 53.

End aux.


(** The header row and the stringified cells of a data row, as [exportCsv]
    and [toCSV] lay them out before quoting. *)
Definition exportCsv_headers (primaryEventLabel secondaryEventLabel : string)
    (secondaryEventEnabled : bool) : list string :=
  Page.filter_Boolean
    [Some "Creative"; Some "Impressions"; Some "Clicks"; Some "Installs";
     Some primaryEventLabel;
     if secondaryEventEnabled then Some secondaryEventLabel else None]%string.

Definition exportCsv_cells (secondaryEventEnabled : bool)
    (row : Page.CreativeRow) : list string :=
  [Page.name row; Number_toString (Page.impressions row);
   Number_toString (Page.clicks row); Number_toString (Page.installs row);
   Number_toString (Page.primaryEvents row)]
  ++ (if secondaryEventEnabled
      then [Number_toString (Page.secondaryEvents row)] else []).


(** A string that [quote_field] leaves as it is. *)
Definition plain (s : string) : bool :=
  negb (includes s dquote || includes s comma || includes s newline).

(** Sample inputs: exact and binary64 replayed random sources (with a
    stand-in for the logarithm, which no sample below calls), and the draws
    and tables of the samples. *)
Definition replay_Q : JSMath Q := replay_JSMath (λ x, x).
Definition replay_binary64 : JSMath float := replay_JSMath (λ x, x).

Definition sample_draws : list Q := [1 # 2; 3 # 5; 7 # 10; 1 # 10]%Q.

(** The table of the page for one creative and the totals 10, 3, 2 and 1. *)
Definition sample_creatives : list Page.CreativeRow :=
  (Page.creatives (MATH:=replay_Q) 1 10 3 2 1 0 Page.balanced false sample_draws).1.

(** A hundred draws between 0 and 1, from a small congruential sequence. *)
Definition sample_draws_100 : list Q :=
  map (λ k : nat, ((Z.of_nat k * 7919 + 13) `mod` 1000) # 1000) (seq 0 100).

(** The exact sum of the rationals that an array of doubles denotes. *)
Definition exact_sum (ws : list float) : Q :=
  foldl (λ a w, Qred (a + float_to_Q w)) 0%Q ws.

(** Pairs of integer-valued doubles around and above 2^53. *)
Definition sample_integer_pairs : list (Z * Z) :=
  [(2 ^ 53, 1); (2 ^ 53 + 2, 1); (2 ^ 53 + 2, -1); (2 ^ 53 + 2, -3);
   (- 2 ^ 53, -1); (- 2 ^ 53 - 2, -1); (13670886075949366, 1);
   (16329113924050630, 1); (4292129370295399, 4715069884445593);
   (2 ^ 60, 2 ^ 7 + 1); (2 ^ 70, 2 ^ 17); (2 ^ 70, 2 ^ 17 + 1);
   (2 ^ 70 + 2 ^ 18, 2 ^ 17); (2 ^ 100, -1); (3, 4)].

(** The state of the part_000 page before the first generation, and a row
    of the page.tsx table. *)
Definition sample_state : DistributorPage.page_state :=
  {| DistributorPage.rows := []; DistributorPage.error := None |}.

Definition sample_row : Page.CreativeRow :=
  {| Page.index := 1; Page.name := "Creative 1"; Page.impressions := 10;
     Page.clicks := 3; Page.installs := 2; Page.primaryEvents := 1;
     Page.secondaryEvents := 4 |}.

(** * Properties *)

(** ** Integer sums *)

Lemma sumZ_foldl (acc : Z) (xs : list Z) : foldl Z.add acc xs = acc + sumZ xs.
Proof.
  unfold sumZ. revert acc.
  induction xs as [|x xs IH]; intros acc; simpl; [lia|].
  rewrite (IH (acc + x)), (IH (0 + x)). lia.
Qed.

Lemma sumZ_nil : sumZ [] = 0.
Proof. reflexivity. Qed.

Lemma sumZ_cons (x : Z) (xs : list Z) : sumZ (x :: xs) = x + sumZ xs.
Proof. unfold sumZ at 1. simpl. rewrite sumZ_foldl. lia. Qed.


Lemma sumZ_replicate_0 (n : nat) : sumZ (replicate n 0) = 0.
Proof. induction n as [|n IH]; [reflexivity|]. simpl. rewrite sumZ_cons. lia. Qed.

(** ** Prefixes *)

Lemma NoDup_take_prefix {A : Type} (n : nat) (l : list A) :
  NoDup l → NoDup (take n l).
Proof.
  intros Hnd. rewrite <- (take_drop n l) in Hnd.
  by apply NoDup_app in Hnd as [? _].
Qed.

(** ** The sort *)

Section sort_facts.
Context {num} `{JSNumber num} {A : Type} (cmp : A → A → num).

Lemma sort_insert_Permutation (a : A) (l : list A) :
  Permutation (sort_insert cmp a l) (a :: l).
Proof.
  induction l as [|b l IH]; simpl; [reflexivity|].
  destruct (num_leb _ _); [reflexivity|].
  rewrite IH. apply perm_swap.
Qed.

Lemma array_sort_Permutation (l : list A) : Permutation (array_sort cmp l) l.
Proof.
  induction l as [|a l IH]; simpl; [reflexivity|].
  rewrite sort_insert_Permutation. by constructor.
Qed.

End sort_facts.

(** ** The ranges on which integer arithmetic is exact *)

(** In exact arithmetic every integer is safe. *)
Lemma Q_exact : exact_on (num:=Q) (λ _, True).
Proof. intros z _. reflexivity. Qed.

Lemma convex_True : convex (λ _, True).
Proof. done. Qed.

(** In binary64 the integers up to 2^53 are, and so they are in exact
    arithmetic. *)
Lemma binary64_exact : exact_on (num:=float) within_2_53.
Proof.
  intros z [Hlo Hhi]. change (binary64_int z = z). unfold binary64_int.
  assert ((Z.abs z <=? 2 ^ 53) = true) as ->; [|reflexivity].
  apply Z.leb_le. lia.
Qed.

Lemma Q_exact_within_2_53 : exact_on (num:=Q) within_2_53.
Proof. intros z _. reflexivity. Qed.

(** [binary64_int] against the addition of the primitive floats: on the
    sample pairs, the sum of the two doubles is the double [binary64_int]
    gives for the exact sum. *)
Lemma binary64_int_addition_samples :
  Forall (λ ab : Z * Z,
            Qfloor (float_to_Q (PrimFloat.add (float_of_Z ab.1) (float_of_Z ab.2)))
            = binary64_int (ab.1 + ab.2)
            ∧ float_of_Z (binary64_int (ab.1 + ab.2))
              = PrimFloat.add (float_of_Z ab.1) (float_of_Z ab.2))
         sample_integer_pairs.
Proof. repeat (constructor; [split; vm_compute; reflexivity|]). constructor. Qed.

Lemma convex_within_2_53 : convex within_2_53.
Proof. unfold convex, within_2_53. lia. Qed.

(** The prefix sums of non-negative integers lie between 0 and the sum. *)
Lemma sumZ_take_nonneg (xs : list Z) (k : nat) :
  Forall (λ x, 0 ≤ x) xs → 0 ≤ sumZ (take k xs) ≤ sumZ xs.
Proof.
  revert k. induction xs as [|x xs IH]; intros k Hall.
  - rewrite take_nil, sumZ_nil. lia.
  - apply Forall_cons in Hall as [Hx Hall]. destruct k as [|k].
    + rewrite take_0, sumZ_nil, sumZ_cons. specialize (IH 0%nat Hall).
      rewrite take_0, sumZ_nil in IH. lia.
    + cbn [take]. rewrite !sumZ_cons. specialize (IH k Hall). lia.
Qed.

(** An entry of an array of non-negative integers is at most their sum. *)
Lemma sumZ_elem_of_nonneg (xs : list Z) (x : Z) :
  Forall (λ x, 0 ≤ x) xs → x ∈ xs → 0 ≤ x ≤ sumZ xs.
Proof.
  induction xs as [|y xs IH]; intros Hall Hin; [by apply elem_of_nil in Hin|].
  apply Forall_cons in Hall as [Hy Hall]. rewrite sumZ_cons.
  pose proof (sumZ_take_nonneg xs 0 Hall) as H0. rewrite take_0, sumZ_nil in H0.
  apply elem_of_cons in Hin as [->|Hin]; [lia|].
  specialize (IH Hall Hin). lia.
Qed.

(** [result[k] = f(result[k])] changes the sum by the change of the entry. *)
Lemma sumZ_alter (f : Z → Z) (k : nat) (xs : list Z) (x : Z) :
  xs !! k = Some x → sumZ (alter f k xs) = sumZ xs - x + f x.
Proof.
  unfold alter. revert k.
  induction xs as [|y xs IH]; intros [|k] Hk; simpl in *; try done.
  - injection Hk as ->. rewrite !sumZ_cons. lia.
  - rewrite !sumZ_cons, (IH k Hk). lia.
Qed.

(** ** The awarding loop of [distributeIntegerTotal] *)

Section award_facts.
Context {num : Type} `{JSNumber num}.
Implicit Types (fr visited : list (DistributorPage.frac_entry (num:=num)))
               (st : DistributorPage.award_state) (result : list Z).

(** One unfolding of the [while] loop. *)
Lemma award_unfold fr st :
  DistributorPage.award fr st =
  if decide (0 < DistributorPage.remainder st
             ∧ (DistributorPage.i st < length fr)%nat) then
    DistributorPage.award fr
      {| DistributorPage.result :=
           alter (λ r, int_add r 1)
             (from_option DistributorPage.idx 0%nat (fr !! DistributorPage.i st))
             (DistributorPage.result st);
         DistributorPage.remainder := int_sub (DistributorPage.remainder st) 1;
         DistributorPage.i := S (DistributorPage.i st) |}
  else st.
Proof.
  rewrite DistributorPage.award_equation_1.
  unfold DistributorPage.award_unfold_clause_1.
  destruct (decide _); reflexivity.
Qed.

(** However the Numbers round, the loop hands one unit to each of the
    entries [i], ..., [i + k - 1] of [frac], for some [k], and stops with
    [i + k] within the array. *)
Lemma award_run fr st :
  ∃ k : nat,
    (k ≤ length fr - DistributorPage.i st)%nat
    ∧ DistributorPage.result (DistributorPage.award fr st)
      = award_units (DistributorPage.result st)
          (take k (drop (DistributorPage.i st) fr))
    ∧ DistributorPage.i (DistributorPage.award fr st)
      = (DistributorPage.i st + k)%nat.
Proof.
  remember (length fr - DistributorPage.i st)%nat as d eqn:Hd.
  revert st Hd. induction d as [|d IH]; intros [res rem j] Hd;
    rewrite award_unfold; simpl in *.
  - rewrite decide_False by lia. exists 0%nat. simpl.
    split; [lia|]. split; [reflexivity|lia].
  - destruct (decide _) as [[Hrem Hj]|Hn].
    + destruct (lookup_lt_is_Some_2 fr j Hj) as [e He]. rewrite He. simpl.
      match goal with |- context [DistributorPage.award fr ?st'] =>
        destruct (IH st') as (k & Hk & Hres & Hi); [simpl; lia|]
      end.
      simpl in Hk, Hres, Hi. exists (S k).
      rewrite (drop_S _ _ _ He). simpl.
      split; [lia|]. split; [exact Hres|lia].
    + exists 0%nat. simpl. split; [lia|]. split; [reflexivity|lia].
Qed.

(** The loop stops with [i] within the array. *)
Lemma award_i_bound fr st :
  (DistributorPage.i st ≤ length fr)%nat →
  (DistributorPage.i (DistributorPage.award fr st) ≤ length fr)%nat.
Proof.
  intros Hi. destruct (award_run fr st) as (k & Hk & _ & ->). lia.
Qed.

Lemma award_units_length result visited :
  length (award_units result visited) = length result.
Proof.
  unfold award_units. revert result.
  induction visited as [|e visited IH]; intros result; simpl; [reflexivity|].
  rewrite IH. apply length_alter.
Qed.

(** A bucket gets one unit when its index is among the visited entries,
    provided no index is visited twice. *)
Lemma award_units_lookup result visited (j : nat) (x : Z) :
  NoDup (DistributorPage.idx <$> visited) →
  result !! j = Some x →
  award_units result visited !! j =
  Some (if bool_decide (j ∈ DistributorPage.idx <$> visited)
        then int_add x 1 else x).
Proof.
  unfold award_units. revert result x.
  induction visited as [|e visited IH]; intros result x Hnd Hj.
  - rewrite bool_decide_eq_false_2 by (apply not_elem_of_nil). done.
  - rewrite fmap_cons in Hnd |- *. apply NoDup_cons in Hnd as [Hnotin Hnd].
    cbn [foldl].
    destruct (decide (j = DistributorPage.idx e)) as [->|Hne].
    + erewrite IH; [|done|by rewrite list_lookup_alter_eq, Hj].
      rewrite bool_decide_eq_false_2 by done.
      rewrite bool_decide_eq_true_2 by (apply elem_of_cons; by left).
      reflexivity.
    + erewrite IH; [|done|by rewrite list_lookup_alter_ne].
      f_equal. erewrite bool_decide_ext; [reflexivity|].
      rewrite elem_of_cons. tauto.
Qed.

Section exact.
Context (safe : Z → Prop) (Hexact : exact_on safe) (Hconvex : convex safe).

(** While the pool [remainder] is counted exactly, the loop passes
    min(max(remainder, 0), frac.length - i) times. *)
Lemma award_closed_form fr st :
  safe 0 → safe (DistributorPage.remainder st) →
  DistributorPage.award fr st =
  {| DistributorPage.result :=
       award_units (DistributorPage.result st)
         (take (award_passes fr st) (drop (DistributorPage.i st) fr));
     DistributorPage.remainder :=
       DistributorPage.remainder st - Z.of_nat (award_passes fr st);
     DistributorPage.i := (DistributorPage.i st + award_passes fr st)%nat |}.
Proof.
  intros H0.
  remember (length fr - DistributorPage.i st)%nat as d eqn:Hd.
  revert st Hd. induction d as [|d IH]; intros [res rem j] Hd Hsafe;
    rewrite award_unfold; unfold award_passes; simpl in *.
  - rewrite decide_False by lia.
    rewrite <- Hd, Nat.min_0_r, Nat.add_0_r, Z.sub_0_r. reflexivity.
  - destruct (decide _) as [[Hrem Hj]|Hn].
    + assert (safe (rem - 1)) as Hsafe' by (apply (Hconvex 0 rem); [done|done|lia]).
      assert (int_sub rem 1 = rem - 1) as -> by (by apply Hexact).
      rewrite IH by (simpl; (lia || done)). unfold award_passes. simpl.
      destruct (lookup_lt_is_Some_2 fr j Hj) as [e He].
      rewrite He, (drop_S _ _ _ He). simpl.
      replace (Z.to_nat rem) with (S (Z.to_nat (rem - 1))) by lia.
      replace (length fr - j)%nat with (S (length fr - S j)) by lia.
      rewrite <- Nat.succ_min_distr. simpl. f_equal; lia.
    + replace (Nat.min (Z.to_nat rem) (length fr - j)) with 0%nat by lia.
      rewrite Nat.add_0_r, Z.sub_0_r. reflexivity.
Qed.

(** While [result[idx] += 1] is exact on the visited buckets, and none is
    visited twice, the sum grows by the number of visits. *)
Lemma award_units_sum result visited :
  NoDup (DistributorPage.idx <$> visited) →
  Forall (λ e, ∃ x, result !! DistributorPage.idx e = Some x ∧ safe (x + 1)) visited →
  sumZ (award_units result visited) = sumZ result + Z.of_nat (length visited).
Proof.
  unfold award_units. revert result.
  induction visited as [|e visited IH]; intros result Hnd Hall; simpl; [lia|].
  rewrite fmap_cons in Hnd. apply NoDup_cons in Hnd as [Hnotin Hnd].
  apply Forall_cons in Hall as [(x & Hx & Hsafe) Hall].
  rewrite IH; [|done|].
  - rewrite (sumZ_alter _ _ _ x Hx). unfold int_add. rewrite (Hexact _ Hsafe). lia.
  - apply Forall_forall. intros e' He'.
    destruct (proj1 (Forall_forall _ _) Hall e' He') as (x' & Hx' & Hsafe').
    exists x'. split; [|done].
    rewrite list_lookup_alter_ne; [done|].
    intros Heq. apply Hnotin. rewrite Heq. apply list_elem_of_fmap. by exists e'.
Qed.
End exact.
End award_facts.

(** ** [distributeIntegerTotal], generic facts *)

Section distributeIntegerTotal_facts.
Context {num : Type} `{JSNumber num}.
Implicit Types (weights : list num) (total : Z).

Lemma distributeIntegerTotal_guard total weights :
  total ≤ 0 ∨ weights = [] →
  DistributorPage.distributeIntegerTotal total weights = replicate (length weights) 0.
Proof.
  intros Hg. unfold DistributorPage.distributeIntegerTotal.
  assert ((total <=? 0) || (length weights =? 0)%nat = true) as ->.
  { destruct Hg as [Ht| ->]; [|by rewrite orb_true_r].
    apply orb_true_iff. left. by apply Z.leb_le. }
  clear Hg. induction weights as [|w weights IH]; [reflexivity|].
  simpl. by rewrite IH.
Qed.

Lemma distributeIntegerTotal_loop total weights :
  0 < total → weights ≠ [] →
  DistributorPage.distributeIntegerTotal total weights =
  DistributorPage.result
    (DistributorPage.award (sorted_fracs_of total weights)
       {| DistributorPage.result := floors_of total weights;
          DistributorPage.remainder :=
            int_sub total (sum_int (floors_of total weights));
          DistributorPage.i := 0 |}).
Proof.
  intros Ht Hw. unfold DistributorPage.distributeIntegerTotal.
  assert ((total <=? 0) || (length weights =? 0)%nat = false) as ->.
  { apply orb_false_iff. split; [by apply Z.leb_gt|].
    apply Nat.eqb_neq. by destruct weights. }
  reflexivity.
Qed.

Lemma floors_of_length total weights : length (floors_of total weights) = length weights.
Proof. unfold floors_of. by rewrite !length_map. Qed.

Lemma floors_of_lookup total weights (j : nat) (w : num) :
  weights !! j = Some w →
  floors_of total weights !! j = Some (Math_floor (num_mul w (num_of_Z total))).
Proof.
  intros Hj. unfold floors_of.
  change map with (@fmap list _) in *. by rewrite !list_lookup_fmap, Hj.
Qed.

Lemma imap_idx_seq {B : Type} (g : nat → B → num) (k : nat) (raw : list B) :
  DistributorPage.idx <$>
    imap (λ i v, {| DistributorPage.idx := (k + i)%nat; DistributorPage.frac := g i v |}) raw
  = seq k (length raw).
Proof.
  revert k g. induction raw as [|v raw IH]; intros k g; [reflexivity|].
  cbn [imap fmap list_fmap length seq DistributorPage.idx].
  rewrite Nat.add_0_r. f_equal.
  rewrite <- (IH (S k) (λ i, g (S i))).
  f_equal. apply imap_ext. intros i x _. simpl. f_equal. lia.
Qed.

Lemma fracs_of_idx total weights :
  DistributorPage.idx <$> fracs_of total weights = seq 0 (length weights).
Proof.
  unfold fracs_of.
  rewrite <- (length_map (λ w, num_mul w (num_of_Z total)) weights).
  apply (imap_idx_seq _ 0).
Qed.

Lemma sorted_fracs_of_idx total weights :
  Permutation (DistributorPage.idx <$> sorted_fracs_of total weights)
              (seq 0 (length weights)).
Proof.
  unfold sorted_fracs_of. rewrite array_sort_Permutation.
  by rewrite fracs_of_idx.
Qed.

Lemma sorted_fracs_of_length total weights :
  length (sorted_fracs_of total weights) = length weights.
Proof.
  rewrite <- (length_fmap DistributorPage.idx), sorted_fracs_of_idx.
  apply length_seq.
Qed.

Lemma sorted_fracs_of_NoDup total weights :
  NoDup (DistributorPage.idx <$> sorted_fracs_of total weights).
Proof. rewrite sorted_fracs_of_idx. apply NoDup_seq. Qed.

Lemma sorted_fracs_of_bound total weights :
  Forall (λ e, (DistributorPage.idx e < length weights)%nat)
         (sorted_fracs_of total weights).
Proof.
  apply Forall_forall. intros e He.
  assert (DistributorPage.idx e ∈ seq 0 (length weights)) as Hin.
  { rewrite <- sorted_fracs_of_idx. apply list_elem_of_fmap. by exists e. }
  apply elem_of_seq in Hin. lia.
Qed.

(** The result, however the Numbers round: the floors, with one unit added
    to each of the first [k] entries of the sorted [frac], for some [k] up
    to [weights.length]. *)
Lemma distributeIntegerTotal_run total weights :
  0 < total → weights ≠ [] →
  ∃ k : nat,
    (k ≤ length weights)%nat
    ∧ DistributorPage.distributeIntegerTotal total weights =
      award_units (floors_of total weights) (take k (sorted_fracs_of total weights)).
Proof.
  intros Ht Hw. rewrite distributeIntegerTotal_loop by done.
  match goal with |- context [DistributorPage.award ?fr ?st] =>
    destruct (award_run fr st) as (k & Hk & Hres & _)
  end.
  simpl in Hk, Hres. rewrite drop_0 in Hres.
  rewrite Nat.sub_0_r, sorted_fracs_of_length in Hk.
  exists k. split; [exact Hk|exact Hres].
Qed.

Lemma distributeIntegerTotal_length total weights :
  length (DistributorPage.distributeIntegerTotal total weights) = length weights.
Proof.
  destruct (decide (total ≤ 0 ∨ weights = [])) as [Hg|Hg].
  - rewrite distributeIntegerTotal_guard by done. apply length_replicate.
  - destruct (distributeIntegerTotal_run total weights) as (k & _ & ->);
      [lia|tauto|].
    by rewrite award_units_length, floors_of_length.
Qed.

(** Every bucket holds its floor, or the Number [floor + 1]: no bucket is
    served twice. *)
Lemma distributeIntegerTotal_lookup total weights (j : nat) (w : num) :
  0 < total → weights !! j = Some w →
  ∃ extra : bool,
    DistributorPage.distributeIntegerTotal total weights !! j =
    Some (if extra then int_add (Math_floor (num_mul w (num_of_Z total))) 1
          else Math_floor (num_mul w (num_of_Z total))).
Proof.
  intros Ht Hj.
  assert (weights ≠ []) as Hw by (intros ->; done).
  destruct (distributeIntegerTotal_run total weights Ht Hw) as (k & _ & ->).
  set (visited := take k (sorted_fracs_of total weights)).
  exists (bool_decide (j ∈ DistributorPage.idx <$> visited)).
  erewrite award_units_lookup; [reflexivity| |by apply floors_of_lookup].
  unfold visited. rewrite fmap_take. apply NoDup_take_prefix, sorted_fracs_of_NoDup.
Qed.

Section exact.
Context (safe : Z → Prop) (Hexact : exact_on safe) (Hconvex : convex safe).

(** [floors.reduce((a, b) => a + b, 0)] is the exact sum while the partial
    sums are safe. *)
Lemma sum_int_exact (xs : list Z) :
  (∀ k : nat, safe (sumZ (take k xs))) → sum_int xs = sumZ xs.
Proof.
  unfold sum_int. intros Hsafe.
  assert (∀ acc, (∀ k : nat, safe (acc + sumZ (take k xs))) →
                 foldl int_add acc xs = acc + sumZ xs) as Hgen.
  { clear Hsafe. induction xs as [|x xs IH]; intros acc Hsafe.
    - simpl. rewrite sumZ_nil. lia.
    - cbn [foldl].
      assert (int_add acc x = acc + x) as ->.
      { apply Hexact. specialize (Hsafe 1%nat). cbn [take] in Hsafe.
        rewrite take_0, sumZ_cons, sumZ_nil, Z.add_0_r in Hsafe. exact Hsafe. }
      rewrite IH; [rewrite sumZ_cons; lia|].
      intros k. specialize (Hsafe (S k)). cbn [take] in Hsafe.
      rewrite sumZ_cons in Hsafe. by rewrite <- Z.add_assoc. }
  rewrite Hgen; [lia|]. intros k. rewrite Z.add_0_l. apply Hsafe.
Qed.

(** The closed form of the result while the floor sum and the shortfall
    are counted exactly: the floors, with one unit added to each of the
    first [k] entries of the sorted [frac], where [k] is the shortfall
    [total - sum(floors)] cut to the range from [0] to [weights.length]. *)
Lemma distributeIntegerTotal_closed_form total weights :
  0 < total → weights ≠ [] →
  (∀ k : nat, safe (sumZ (take k (floors_of total weights)))) →
  safe (total - sumZ (floors_of total weights)) →
  DistributorPage.distributeIntegerTotal total weights =
  award_units (floors_of total weights)
    (take (Nat.min (Z.to_nat (total - sumZ (floors_of total weights)))
                   (length weights))
          (sorted_fracs_of total weights)).
Proof.
  intros Ht Hw Hsum Hrem. rewrite distributeIntegerTotal_loop by done.
  assert (safe 0) as H0.
  { specialize (Hsum 0%nat). by rewrite take_0, sumZ_nil in Hsum. }
  rewrite (sum_int_exact _ Hsum).
  assert (int_sub total (sumZ (floors_of total weights))
          = total - sumZ (floors_of total weights)) as -> by (by apply Hexact).
  rewrite (award_closed_form safe Hexact Hconvex) by done.
  simpl. unfold award_passes. simpl.
  by rewrite Nat.sub_0_r, drop_0, sorted_fracs_of_length.
Qed.

Lemma distributeIntegerTotal_sum total weights :
  0 < total → weights ≠ [] →
  (∀ k : nat, safe (sumZ (take k (floors_of total weights)))) →
  safe (total - sumZ (floors_of total weights)) →
  Forall (λ f, safe (f + 1)) (floors_of total weights) →
  sumZ (DistributorPage.distributeIntegerTotal total weights) =
  sumZ (floors_of total weights)
  + Z.of_nat (Nat.min (Z.to_nat (total - sumZ (floors_of total weights)))
                      (length weights)).
Proof.
  intros Ht Hw Hsum Hrem Hfl. rewrite distributeIntegerTotal_closed_form by done.
  rewrite (award_units_sum safe Hexact).
  - rewrite length_take, sorted_fracs_of_length. lia.
  - rewrite fmap_take. apply NoDup_take_prefix, sorted_fracs_of_NoDup.
  - apply Forall_take.
    eapply Forall_impl; [apply sorted_fracs_of_bound|]. intros e He. simpl in He.
    rewrite <- (floors_of_length total) in He.
    destruct (lookup_lt_is_Some_2 _ _ He) as [x Hx].
    exists x. split; [done|].
    exact (proj1 (Forall_forall _ _) Hfl x (list_elem_of_lookup_2 _ _ _ Hx)).
Qed.
End exact.
End distributeIntegerTotal_facts.

(** ** [distribute], generic facts *)

Section distribute_facts.
Context {num : Type} `{JSNumber num}.
Implicit Types (weights : list num) (total : Z).

Lemma distribute_guard total weights :
  total ≤ 0 ∨ weights = [] →
  Page.distribute total weights = replicate (length weights) 0.
Proof.
  intros Hg. unfold Page.distribute.
  assert ((total <=? 0) || (length weights =? 0)%nat = true) as ->; [|done].
  destruct Hg as [Ht| ->]; [|by rewrite orb_true_r].
  apply orb_true_iff. left. by apply Z.leb_le.
Qed.

Lemma rounded_shares_snoc total weights (w : num) :
  rounded_shares total (weights ++ [w]) =
  rounded_shares total weights ++ [Math_round (num_mul (num_of_Z total) w)].
Proof. unfold rounded_shares. by rewrite map_app. Qed.

Lemma rounded_shares_length total weights :
  length (rounded_shares total weights) = length weights.
Proof. unfold rounded_shares. by rewrite length_map. Qed.

(** The loop invariant: after [k] passes, none of them the last, the first
    [k] buckets hold their rounded shares and [remaining] is the total with
    these shares subtracted in turn. *)
Lemma distribute_loop_invariant total weights (k : nat) :
  (k < length weights)%nat →
  foldl (Page.distribute_step total weights)
        (replicate (length weights) 0, total) (seq 0 k) =
  (rounded_shares total (take k weights) ++ replicate (length weights - k) 0,
   pool_left total (rounded_shares total (take k weights))).
Proof.
  induction k as [|k IH]; intros Hk.
  - simpl. rewrite Nat.sub_0_r. reflexivity.
  - rewrite seq_S, foldl_app, IH by lia. simpl.
    rewrite bool_decide_eq_false_2 by lia.
    destruct (lookup_lt_is_Some_2 weights k) as [w Hw]; [lia|].
    rewrite Hw, (take_S_r _ _ _ Hw), rounded_shares_snoc. simpl.
    unfold pool_left at 2. rewrite foldl_app. f_equal.
    assert (length (rounded_shares total (take k weights)) = k) as Hlen
      by (rewrite rounded_shares_length, length_take_le; lia).
    rewrite insert_app_r_alt by lia. rewrite Hlen, Nat.sub_diag.
    replace (length weights - k)%nat with (S (length weights - S k)) by lia.
    simpl. by rewrite <- app_assoc.
Qed.

(** The closed form of the result: rounded shares for all buckets but the
    last, which takes what is left of the total. *)
Lemma distribute_closed_form total weights (w : num) :
  0 < total →
  Page.distribute total (weights ++ [w]) =
  rounded_shares total weights ++ [pool_left total (rounded_shares total weights)].
Proof.
  intros Ht. unfold Page.distribute.
  assert ((total <=? 0) || (length (weights ++ [w]) =? 0)%nat = false) as ->.
  { apply orb_false_iff. split; [by apply Z.leb_gt|].
    apply Nat.eqb_neq. rewrite length_app. simpl. lia. }
  rewrite length_app. simpl. rewrite Nat.add_1_r.
  rewrite seq_S, foldl_app.
  pose proof (distribute_loop_invariant total (weights ++ [w]) (length weights)) as Hinv.
  rewrite length_app in Hinv. simpl in Hinv. rewrite Nat.add_1_r in Hinv.
  rewrite Hinv by lia. simpl.
  rewrite length_app. simpl.
  rewrite bool_decide_eq_true_2 by lia. simpl.
  rewrite take_app_length.
  replace (S (length weights) - length weights)%nat with 1%nat by lia. simpl.
  rewrite insert_app_r_alt by (rewrite rounded_shares_length; lia).
  by rewrite rounded_shares_length, Nat.sub_diag.
Qed.

Lemma distribute_length total weights :
  length (Page.distribute total weights) = length weights.
Proof.
  destruct (decide (total ≤ 0 ∨ weights = [])) as [Hg|Hg].
  - rewrite distribute_guard by done. apply length_replicate.
  - destruct (exists_last (l:=weights)) as (ws & w & ->); [tauto|].
    rewrite distribute_closed_form by lia.
    rewrite !length_app, rounded_shares_length. reflexivity.
Qed.

(** The running-remainder allocator gives every bucket but the last its
    rounded share. *)
Lemma distribute_lookup total weights (j : nat) (w : num) :
  0 < total → weights !! j = Some w → (S j < length weights)%nat →
  Page.distribute total weights !! j =
  Some (Math_round (num_mul (num_of_Z total) w)).
Proof.
  intros Ht Hw Hj.
  destruct (exists_last (l:=weights)) as (ws & wl & ->); [by intros ->|].
  rewrite length_app in Hj. simpl in Hj.
  rewrite lookup_app_l in Hw by lia.
  rewrite distribute_closed_form by done.
  rewrite lookup_app_l by (rewrite rounded_shares_length; lia).
  unfold rounded_shares. change map with (@fmap list _).
  by rewrite list_lookup_fmap, Hw.
Qed.

Section exact.
Context (safe : Z → Prop) (Hexact : exact_on safe).


End exact.
End distribute_facts.

(** ** Conservation while the integers stay within 2^53 *)

Section conservation_facts.
Context {num : Type} `{JSNumber num}.
Context (Hexact : exact_on (num:=num) within_2_53).



(** The largest-remainder allocation conserves the total exactly when the
    floors fall short of it by no more than one unit per bucket. *)
Lemma distributeIntegerTotal_sum_within (total : Z) (weights : list num) :
  0 < total ≤ 2 ^ 53 → weights ≠ [] →
  Forall (λ f, 0 ≤ f) (floors_of total weights) →
  sumZ (floors_of total weights) ≤ 2 ^ 53 →
  (sumZ (DistributorPage.distributeIntegerTotal total weights) = total
   ↔ 0 ≤ total - sumZ (floors_of total weights) ≤ Z.of_nat (length weights)).
Proof.
  intros Ht Hne Hfl Hsum.
  assert (∀ k : nat, within_2_53 (sumZ (take k (floors_of total weights)))) as Hpre.
  { intros k. pose proof (sumZ_take_nonneg _ k Hfl). unfold within_2_53. lia. }
  assert (within_2_53 (total - sumZ (floors_of total weights))) as Hrem.
  { pose proof (sumZ_take_nonneg _ 0 Hfl) as H0.
    rewrite take_0, sumZ_nil in H0. unfold within_2_53. lia. }
  destruct (Z.le_gt_cases (total - sumZ (floors_of total weights)) 0) as [Hle|Hgt].
  - (* no unit is handed out *)
    rewrite (distributeIntegerTotal_closed_form within_2_53 Hexact convex_within_2_53)
      by (done || lia).
    replace (Z.to_nat (total - sumZ (floors_of total weights))) with 0%nat by lia.
    rewrite Nat.min_0_l, take_0. change (award_units ?r []) with r. lia.
  - (* every floor is below the total *)
    rewrite (distributeIntegerTotal_sum within_2_53 Hexact convex_within_2_53);
      [lia|lia|done|done|done|].
    apply Forall_forall. intros f Hf.
    pose proof (sumZ_elem_of_nonneg _ f Hfl Hf). unfold within_2_53. lia.
Qed.
End conservation_facts.

(** ** Exact arithmetic: sums of rationals *)

Lemma sum_num_Q_foldl (a : Q) (l : list Q) :
  (foldl Qplus a l == a + sum_num l)%Q.
Proof.
  unfold sum_num. simpl. revert a.
  induction l as [|x l IH]; intros a; simpl; [lra|].
  rewrite (IH (a + x)%Q), (IH (0 + x)%Q). lra.
Qed.

Lemma sum_num_Q_cons (x : Q) (l : list Q) :
  (sum_num (x :: l) == x + sum_num l)%Q.
Proof.
  unfold sum_num at 1. simpl. rewrite sum_num_Q_foldl. lra.
Qed.

Lemma sum_num_Q_pos (l : list Q) :
  Forall (λ x, 0 < x)%Q l → l ≠ [] → (0 < sum_num l)%Q.
Proof.
  intros Hall Hne. destruct Hall as [|x l Hx Hall]; [done|]. clear Hne.
  rewrite sum_num_Q_cons.
  assert (0 <= sum_num l)%Q; [|lra].
  induction Hall as [|y l Hy Hall IH]; [unfold sum_num; simpl; lra|].
  rewrite sum_num_Q_cons. lra.
Qed.

Lemma sum_num_Q_div (c : Q) (l : list Q) :
  (sum_num (map (λ v, num_div v c) l) == sum_num l / c)%Q.
Proof.
  induction l as [|x l IH]; simpl.
  - unfold sum_num. simpl. unfold Qdiv. ring.
  - rewrite !sum_num_Q_cons, IH. unfold Qdiv. ring.
Qed.

Lemma sum_num_Q_mul (c : Q) (l : list Q) :
  (sum_num (map (λ w, num_mul w c) l) == sum_num l * c)%Q.
Proof.
  induction l as [|x l IH]; simpl.
  - unfold sum_num. simpl. ring.
  - rewrite !sum_num_Q_cons, IH. ring.
Qed.

(** The floors of the raw shares lie below the raw shares, by less than one
    unit per bucket. *)
Lemma floors_of_Q_bounds (total : Z) (weights : list Q) :
  (inject_Z (sumZ (floors_of total weights))
     <= sum_num (map (λ w, num_mul w (inject_Z total)) weights))%Q
  ∧ (sum_num (map (λ w, num_mul w (inject_Z total)) weights)
     <= inject_Z (sumZ (floors_of total weights) + Z.of_nat (length weights)))%Q
  ∧ (weights ≠ [] →
     (sum_num (map (λ w, num_mul w (inject_Z total)) weights)
      < inject_Z (sumZ (floors_of total weights) + Z.of_nat (length weights)))%Q).
Proof.
  induction weights as [|w weights (IH1 & IH2 & IH3)].
  - repeat split; [apply Qle_refl|apply Qle_refl|done].
  - unfold floors_of in *. cbn [map length].
    rewrite sumZ_cons, sum_num_Q_cons.
    pose proof (Qfloor_le (num_mul w (num_of_Z total))) as Hlo.
    pose proof (Qlt_floor (num_mul w (num_of_Z total))) as Hhi.
    rewrite Nat2Z.inj_succ. unfold Z.succ.
    rewrite !inject_Z_plus in *.
    change (Math_floor (num_mul w (num_of_Z total)))
      with (Qfloor (num_mul w (num_of_Z total))).
    change (@num_of_Z Q _ total) with (inject_Z total) in *.
    set (x := num_mul w (inject_Z total)) in *.
    set (fx := inject_Z (Qfloor x)) in *.
    set (S := sum_num (map _ weights)) in *.
    set (F := inject_Z (sumZ _)) in *.
    set (n := inject_Z (Z.of_nat _)) in *.
    change (inject_Z 1) with 1%Q in *.
    clearbody x fx S F n.
    split; [lra|]. split; [lra|]. intros _. lra.
Qed.

(** For weights whose sum, scaled by the total, is less than one unit away
    from the total, the shortfall [total - sum(floors)] is between [0] and
    the number of buckets. *)
Lemma shortfall_Q_range (total : Z) (weights : list Q) :
  (inject_Z total - 1 < sum_num weights * inject_Z total)%Q →
  (sum_num weights * inject_Z total < inject_Z total + 1)%Q →
  0 ≤ total - sumZ (floors_of total weights) ≤ Z.of_nat (length weights).
Proof.
  intros Hlow Hhigh.
  destruct (floors_of_Q_bounds total weights) as (Hlo & Hhi & _).
  rewrite sum_num_Q_mul in Hlo, Hhi.
  assert (inject_Z (sumZ (floors_of total weights)) < inject_Z (total + 1))%Q as H1
    by (rewrite inject_Z_plus; change (inject_Z 1) with 1%Q; lra).
  assert (inject_Z (total - 1)
          < inject_Z (sumZ (floors_of total weights) + Z.of_nat (length weights)))%Q
    as H2.
  { unfold Z.sub. rewrite (inject_Z_plus total).
    change (inject_Z (- (1))) with (- (1))%Q. lra. }
  rewrite <- Zlt_Qlt in H1, H2. lia.
Qed.

(** Conservation of the largest-remainder allocation, for weights that sum
    to one up to less than [1 / total]. *)
Lemma distributeIntegerTotal_Q_sum_within (total : Z) (weights : list Q) :
  0 ≤ total → weights ≠ [] →
  (inject_Z total - 1 < sum_num weights * inject_Z total)%Q →
  (sum_num weights * inject_Z total < inject_Z total + 1)%Q →
  sumZ (DistributorPage.distributeIntegerTotal total weights) = total.
Proof.
  intros Ht Hw Hlow Hhigh. destruct (decide (total = 0)) as [->|Hne].
  - rewrite distributeIntegerTotal_guard by (by left). apply sumZ_replicate_0.
  - rewrite (distributeIntegerTotal_sum (λ _, True) Q_exact convex_True);
      [|lia|done|done|done|by apply Forall_true].
    pose proof (shortfall_Q_range total weights Hlow Hhigh). lia.
Qed.

(** In particular for weights that sum to one. *)
Lemma distributeIntegerTotal_Q_sum (total : Z) (weights : list Q) :
  0 ≤ total → weights ≠ [] → (sum_num weights == 1)%Q →
  sumZ (DistributorPage.distributeIntegerTotal total weights) = total.
Proof.
  intros Ht Hw Hsum.
  apply distributeIntegerTotal_Q_sum_within; [done|done| |];
    rewrite Hsum, Qmult_1_l; lra.
Qed.

(** The largest-remainder allocator keeps every entry non-negative when the
    weights are non-negative (exact arithmetic). *)
Lemma distributeIntegerTotal_Q_nonneg (total : Z) (weights : list Q) :
  0 ≤ total → Forall (λ w, 0 <= w)%Q weights →
  Forall (λ r, 0 ≤ r) (DistributorPage.distributeIntegerTotal total weights).
Proof.
  intros Ht Hw. destruct (decide (total = 0)) as [->|Hne].
  - rewrite distributeIntegerTotal_guard by (by left).
    apply Forall_replicate. lia.
  - apply Forall_lookup. intros j r Hr.
    assert (j < length weights)%nat as Hj.
    { rewrite <- (distributeIntegerTotal_length total). by eapply lookup_lt_Some. }
    destruct (lookup_lt_is_Some_2 weights j Hj) as [w Hwj].
    destruct (distributeIntegerTotal_lookup total weights j w) as [extra Hx];
      [lia|done|].
    change (int_add (Math_floor (num_mul w (num_of_Z total))) 1)
      with (Math_floor (num_mul w (num_of_Z total)) + 1) in Hx.
    assert (r = if extra then Math_floor (num_mul w (num_of_Z total)) + 1
                else Math_floor (num_mul w (num_of_Z total)))
      as -> by congruence.
    assert (0 <= w)%Q as Hw0 by (eapply Forall_lookup_1; eauto).
    assert (0 ≤ Math_floor (num_mul w (num_of_Z total))) as Hfl.
    2: { generalize dependent (Math_floor (num_mul w (num_of_Z total))).
         intros x _ _ Hfl. destruct extra; lia. }
    change 0 with (Qfloor 0). apply Qfloor_resp_le.
    apply Qmult_le_0_compat; [done|].
    change (inject_Z 0 <= inject_Z total)%Q. rewrite <- Zle_Qle. lia.
Qed.

(** ** [generateWeights], generic facts *)

Section generateWeights_facts.
Context {num : Type} `{JSNumber num} `{JSMath num}.

Lemma DistributorPage_draw_loop_length (style : DistributorPage.DistributionStyle)
    (l : list nat) (st : list num * rng) :
  length (foldl (λ st (_ : nat), DistributorPage.draw_weight style st) st l).1
  = (length st.1 + length l)%nat.
Proof.
  revert st. induction l as [|k l IH]; intros st; simpl; [lia|].
  rewrite IH. destruct st as [raw s]. unfold DistributorPage.draw_weight.
  destruct style; destruct (Math_random s) as [r s']; simpl;
    rewrite length_app; simpl; lia.
Qed.

Lemma DistributorPage_generateWeights_length (count : Z)
    (style : DistributorPage.DistributionStyle) (s : rng) :
  length (DistributorPage.generateWeights count style s).1 = Z.to_nat count.
Proof.
  unfold DistributorPage.generateWeights.
  destruct (Z.leb_spec count 0) as [Hc|Hc]; [simpl; lia|].
  pose proof (DistributorPage_draw_loop_length style (seq 0 (Z.to_nat count)) ([], s)) as Hlen.
  destruct (foldl _ _ _) as [raw s']. simpl in *.
  by rewrite length_map, Hlen, length_seq.
Qed.

Lemma Page_draw_loop_length (factor : num) (l : list nat) (st : list num * rng) :
  length (foldl (λ '(weights, s) (_ : nat),
                   let '(r, s') := Math_random s in
                   let w := num_add (num_lit 1) (num_mul r factor) in
                   (weights ++ [w], s')) st l).1
  = (length st.1 + length l)%nat.
Proof.
  revert st. induction l as [|k l IH]; intros st; simpl; [lia|].
  rewrite IH. destruct st as [weights s].
  destruct (Math_random s) as [r s']; simpl. rewrite length_app; simpl; lia.
Qed.

Lemma Page_generateWeights_length (count : Z) (variance : Page.VarianceLevel) (s : rng) :
  length (Page.generateWeights count variance s).1 = Z.to_nat count.
Proof.
  unfold Page.generateWeights.
  destruct (Z.leb_spec count 0) as [Hc|Hc]; [simpl; lia|].
  match goal with |- context [foldl ?f ?a ?l] =>
    pose proof (Page_draw_loop_length
                  match variance with
                  | Page.balanced => num_lit (2 # 10)
                  | Page.medium => num_lit 1
                  | Page.high => num_lit 3
                  end l a) as Hlen;
    destruct (foldl f a l) as [weights s']
  end.
  simpl in *. by rewrite length_map, Hlen, length_seq.
Qed.
End generateWeights_facts.

(** ** [generateWeights] in exact arithmetic *)

Section generateWeights_exact.
Context `{JSMath Q}.

Lemma DistributorPage_draw_loop_pos (style : DistributorPage.DistributionStyle)
    (l : list nat) (st : list Q * rng) :
  Forall (λ x, 0 < x)%Q st.1 →
  Forall (λ x, 0 < x)%Q
    (foldl (λ st (_ : nat), DistributorPage.draw_weight style st) st l).1.
Proof.
  revert st. induction l as [|k l IH]; intros st Hst; simpl; [done|].
  apply IH. destruct st as [raw s]. unfold DistributorPage.draw_weight.
  assert (∀ w : Q, 0 < (if num_leb w (num_lit 0) then num_lit (1 # 10000) else w))%Q
    as Hclamp.
  { intros w. simpl. destruct (Qle_bool w 0) eqn:Hle; [reflexivity|].
    apply Qnot_le_lt. intros Hw. apply Qle_bool_iff in Hw. congruence. }
  destruct style; destruct (Math_random s) as [r s']; simpl;
    (apply Forall_app; split; [done|]); apply Forall_singleton, Hclamp.
Qed.

(** Normalised weights: positive, and of sum one. *)
Lemma normalise_Q (raw : list Q) :
  Forall (λ x, 0 < x)%Q raw → raw ≠ [] →
  Forall (λ x, 0 < x)%Q (map (λ v, num_div v (sum_num raw)) raw)
  ∧ (sum_num (map (λ v, num_div v (sum_num raw)) raw) == 1)%Q.
Proof.
  intros Hpos Hne. pose proof (sum_num_Q_pos raw Hpos Hne) as HS. split.
  - apply Forall_fmap. eapply Forall_impl; [exact Hpos|].
    intros x Hx. change (0 < x / sum_num raw)%Q.
    apply Qlt_shift_div_l; [done|]. by rewrite Qmult_0_l.
  - rewrite sum_num_Q_div. field. lra.
Qed.

Lemma DistributorPage_generateWeights_Q (count : Z)
    (style : DistributorPage.DistributionStyle) (s : rng) :
  0 < count →
  Forall (λ x, 0 < x)%Q (DistributorPage.generateWeights count style s).1
  ∧ (sum_num (DistributorPage.generateWeights count style s).1 == 1)%Q.
Proof.
  intros Hc. unfold DistributorPage.generateWeights.
  rewrite (proj2 (Z.leb_gt count 0)) by done.
  pose proof (DistributorPage_draw_loop_pos style (seq 0 (Z.to_nat count)) ([], s)) as Hpos.
  pose proof (DistributorPage_draw_loop_length style (seq 0 (Z.to_nat count)) ([], s)) as Hlen.
  destruct (foldl _ _ _) as [raw s']. simpl in *.
  apply normalise_Q; [by apply Hpos|].
  rewrite length_seq in Hlen. intros ->. simpl in Hlen. lia.
Qed.
(** The same for page.tsx, whose draws [1 + random * factor] are positive
    as long as [Math.random] returns non-negative numbers. *)
Lemma Page_draw_loop_pos (factor : Q) (l : list nat) (st : list Q * rng) :
  (0 < factor)%Q →
  (∀ s : rng, 0 <= (Math_random s).1)%Q →
  Forall (λ x, 0 < x)%Q st.1 →
  Forall (λ x, 0 < x)%Q
    (foldl (λ '(weights, s) (_ : nat),
              let '(r, s') := Math_random s in
              let w := num_add (num_lit 1) (num_mul r factor) in
              (weights ++ [w], s')) st l).1.
Proof.
  intros Hf Hrand. revert st.
  induction l as [|k l IH]; intros st Hst; simpl; [done|].
  apply IH. destruct st as [weights s].
  pose proof (Hrand s) as Hr. destruct (Math_random s) as [r s']. simpl in *.
  apply Forall_app; split; [done|]. apply Forall_singleton.
  assert (0 <= r * factor)%Q by (apply Qmult_le_0_compat; lra). lra.
Qed.

Lemma Page_generateWeights_Q (count : Z) (variance : Page.VarianceLevel) (s : rng) :
  0 < count →
  (∀ s : rng, 0 <= (Math_random s).1)%Q →
  Forall (λ x, 0 < x)%Q (Page.generateWeights count variance s).1
  ∧ (sum_num (Page.generateWeights count variance s).1 == 1)%Q.
Proof.
  intros Hc Hrand. unfold Page.generateWeights.
  rewrite (proj2 (Z.leb_gt count 0)) by done.
  set (factor := match variance with
                 | Page.balanced => num_lit (2 # 10)
                 | Page.medium => num_lit 1
                 | Page.high => num_lit 3
                 end).
  assert (0 < factor)%Q as Hf by (by destruct variance).
  pose proof (Page_draw_loop_pos factor (seq 0 (Z.to_nat count)) ([], s) Hf Hrand) as Hpos.
  pose proof (Page_draw_loop_length factor (seq 0 (Z.to_nat count)) ([], s)) as Hlen.
  destruct (foldl _ _ _) as [weights s']. simpl in *.
  apply normalise_Q; [by apply Hpos|].
  rewrite length_seq in Hlen. intros ->. simpl in Hlen. lia.
Qed.
End generateWeights_exact.

(** ** Reading back quoted fields *)

Lemma string_app_cons (c : ascii) (s t : string) :
  String c s +:+ t = String c (s +:+ t).
Proof. reflexivity. Qed.

Lemma string_app_nil_l (s : string) : EmptyString +:+ s = s.
Proof. reflexivity. Qed.

Lemma string_app_nil_r (s : string) : s +:+ EmptyString = s.
Proof.
  induction s as [|c s IH]; [reflexivity|]. by rewrite string_app_cons, IH.
Qed.

Lemma string_app_assoc (s t u : string) : (s +:+ t) +:+ u = s +:+ (t +:+ u).
Proof.
  induction s as [|c s IH]; [reflexivity|]. by rewrite !string_app_cons, IH.
Qed.

Section read_facts.
Implicit Types (m : Csv.mode) (field s rest : string) (row : list string)
               (rows : list (list string)).

Lemma read_end m field row rows :
  Csv.read m field row rows EmptyString = rows ++ [row ++ [field]].
Proof. reflexivity. Qed.

Lemma read_comma m field row rows rest :
  m ≠ Csv.Quoted →
  Csv.read m field row rows (String comma rest) =
  Csv.read Csv.FieldStart EmptyString (row ++ [field]) rows rest.
Proof. intros Hm. destruct m; done. Qed.

Lemma read_newline m field row rows rest :
  m ≠ Csv.Quoted →
  Csv.read m field row rows (String newline rest) =
  Csv.read Csv.FieldStart EmptyString [] (rows ++ [row ++ [field]]) rest.
Proof. intros Hm. destruct m; done. Qed.

(** A field without special characters is read as it stands. *)
Lemma read_plain s : ∀ m field row rows rest,
  m ≠ Csv.Quoted →
  includes s dquote = false → includes s comma = false →
  includes s newline = false →
  ∃ m', m' ≠ Csv.Quoted ∧
    Csv.read m field row rows (s +:+ rest) =
    Csv.read m' (field +:+ s) row rows rest.
Proof.
  induction s as [|c s IH]; intros m field row rows rest Hm Hq Hc Hn.
  - exists m. by rewrite string_app_nil_r.
  - simpl in Hq, Hc, Hn.
    apply orb_false_iff in Hq as [Hq1 Hq], Hc as [Hc1 Hc], Hn as [Hn1 Hn].
    destruct (IH Csv.Unquoted (field +:+ String c EmptyString) row rows rest)
      as (m' & Hm' & Heq); try done.
    exists m'. split; [done|].
    rewrite string_app_cons.
    transitivity (Csv.read Csv.Unquoted (field +:+ String c EmptyString)
                    row rows (s +:+ rest)).
    { destruct m; try done; cbn [Csv.read]; by rewrite Hc1, Hn1, Hq1. }
    rewrite Heq. by rewrite string_app_assoc.
Qed.

(** The body of a quoted field, up to its closing quote. *)
Lemma read_quoted_body s : ∀ field row rows rest,
  Csv.read Csv.Quoted field row rows
    (replace_quotes s +:+ String dquote rest) =
  Csv.read Csv.QuoteSeen (field +:+ s) row rows rest.
Proof.
  induction s as [|c s IH]; intros field row rows rest.
  - cbn. by rewrite string_app_nil_r.
  - cbn [replace_quotes]. destruct (bool_decide (c = dquote)) eqn:Hc.
    + apply bool_decide_eq_true in Hc as ->.
      rewrite !string_app_cons. cbn [Csv.read]. cbn.
      rewrite IH, string_app_assoc. reflexivity.
    + rewrite string_app_cons. cbn [Csv.read].
      rewrite Hc, IH, string_app_assoc. reflexivity.
Qed.

(** What [quote_field] writes is read back as the field itself. *)
Lemma read_quote_field s row rows rest :
  ∃ m', m' ≠ Csv.Quoted ∧
    Csv.read Csv.FieldStart EmptyString row rows (quote_field s +:+ rest) =
    Csv.read m' s row rows rest.
Proof.
  unfold quote_field.
  destruct (includes s dquote || includes s comma || includes s newline) eqn:Hs.
  - exists Csv.QuoteSeen. split; [done|].
    rewrite string_app_cons, string_app_assoc, string_app_cons, string_app_nil_l.
    cbn [Csv.read]. cbn. apply (read_quoted_body s EmptyString).
  - apply orb_false_iff in Hs as [Hs Hn]. apply orb_false_iff in Hs as [Hq Hc].
    by apply (read_plain s Csv.FieldStart EmptyString).
Qed.

(** A record of quoted fields, at the end of the text and before a line
    feed. *)
Lemma read_record_end (fs : list string) : ∀ (f : string) row rows,
  Csv.read Csv.FieldStart EmptyString row rows
    (join comma (map quote_field (f :: fs))) = rows ++ [row ++ f :: fs].
Proof.
  induction fs as [|g fs IH]; intros f row rows.
  - simpl. destruct (read_quote_field f row rows EmptyString) as (m' & Hm' & Heq).
    rewrite string_app_nil_r in Heq. by rewrite Heq, read_end.
  - change (join comma (map quote_field (f :: g :: fs)))
      with (quote_field f +:+ String comma (join comma (map quote_field (g :: fs)))).
    destruct (read_quote_field f row rows
                (String comma (join comma (map quote_field (g :: fs)))))
      as (m' & Hm' & ->).
    rewrite read_comma, IH by done. by rewrite <- app_assoc.
Qed.

Lemma read_record_newline (fs : list string) : ∀ (f : string) row rows rest,
  Csv.read Csv.FieldStart EmptyString row rows
    (join comma (map quote_field (f :: fs)) +:+ String newline rest) =
  Csv.read Csv.FieldStart EmptyString [] (rows ++ [row ++ f :: fs]) rest.
Proof.
  induction fs as [|g fs IH]; intros f row rows rest.
  - simpl. destruct (read_quote_field f row rows (String newline rest))
      as (m' & Hm' & ->).
    by rewrite read_newline.
  - change (join comma (map quote_field (f :: g :: fs)))
      with (quote_field f +:+ String comma (join comma (map quote_field (g :: fs)))).
    rewrite string_app_assoc, string_app_cons.
    destruct (read_quote_field f row rows
                (String comma (join comma (map quote_field (g :: fs))
                               +:+ String newline rest)))
      as (m' & Hm' & ->).
    rewrite read_comma, IH by done. by rewrite <- app_assoc.
Qed.

(** A text of records, each with at least one field. *)
Lemma read_records (rs : list (list string)) : ∀ (r : list string) rows,
  Forall (λ r, r ≠ []) (r :: rs) →
  Csv.read Csv.FieldStart EmptyString [] rows
    (join newline (map (λ r, join comma (map quote_field r)) (r :: rs))) =
  rows ++ r :: rs.
Proof.
  induction rs as [|r' rs IH]; intros r rows Hne;
    apply Forall_cons in Hne as [Hr Hne]; destruct r as [|f fs]; try done.
  - change (join newline (map _ [f :: fs]))
      with (join comma (map quote_field (f :: fs))).
    by rewrite read_record_end.
  - change (join newline (map _ ((f :: fs) :: r' :: rs)))
      with (join comma (map quote_field (f :: fs)) +:+
            String newline
              (join newline (map (λ r, join comma (map quote_field r)) (r' :: rs)))).
    rewrite read_record_newline, IH by done.
    by rewrite <- app_assoc.
Qed.

(** The round trip through the reader. *)
Lemma parse_quoted_records (rs : list (list string)) :
  rs ≠ [] → Forall (λ r, r ≠ []) rs →
  Csv.parse (join newline (map (λ r, join comma (map quote_field r)) rs)) = rs.
Proof.
  intros Hrs Hne. destruct rs as [|r rs]; [done|].
  unfold Csv.parse. by rewrite read_records.
Qed.
End read_facts.

(** ** The exports read back *)

Lemma quote_field_plain (s : string) : plain s = true → quote_field s = s.
Proof.
  unfold plain, quote_field. intros Hs. apply negb_true_iff in Hs. by rewrite Hs.
Qed.

Lemma map_quote_field_plain (l : list string) :
  Forall (λ s, plain s = true) l → map quote_field l = l.
Proof.
  induction 1 as [|s l Hs Hl IH]; [reflexivity|].
  simpl. by rewrite quote_field_plain, IH.
Qed.

Lemma foldl_snoc_map {A B : Type} (f : A → B) (acc : list B) (l : list A) :
  foldl (λ lines x, lines ++ [f x]) acc l = acc ++ map f l.
Proof.
  revert acc. induction l as [|x l IH]; intros acc; simpl.
  - by rewrite app_nil_r.
  - by rewrite IH, <- app_assoc.
Qed.


(** [exportCsv]: the same, provided the header labels need no quoting. *)
Lemma exportCsv_roundtrip (creatives : list Page.CreativeRow)
    (primaryEventLabel secondaryEventLabel : string) (secondaryEventEnabled : bool) :
  creatives ≠ [] →
  Forall (λ s, plain s = true)
    (exportCsv_headers primaryEventLabel secondaryEventLabel secondaryEventEnabled) →
  Csv.parse <$>
    Page.exportCsv creatives primaryEventLabel secondaryEventLabel secondaryEventEnabled
  = Some (exportCsv_headers primaryEventLabel secondaryEventLabel secondaryEventEnabled
          :: map (exportCsv_cells secondaryEventEnabled) creatives).
Proof.
  intros Hrows Hplain. unfold Page.exportCsv.
  rewrite bool_decide_eq_false_2 by (by destruct creatives).
  cbn [fmap option_fmap option_map]. f_equal.
  fold (exportCsv_headers primaryEventLabel secondaryEventLabel secondaryEventEnabled).
  set (hs := exportCsv_headers _ _ _) in *.
  rewrite (foldl_snoc_map
             (λ row, join comma
                (map (λ v, quote_field (String_of v))
                   (if secondaryEventEnabled
                    then [Str (Page.name row); Num (Page.impressions row);
                          Num (Page.clicks row); Num (Page.installs row);
                          Num (Page.primaryEvents row)]
                         ++ [Num (Page.secondaryEvents row)]
                    else [Str (Page.name row); Num (Page.impressions row);
                          Num (Page.clicks row); Num (Page.installs row);
                          Num (Page.primaryEvents row)])))).
  assert (hs ≠ []) as Hhs by done.
  rewrite <- (parse_quoted_records (hs :: map (exportCsv_cells secondaryEventEnabled) creatives));
    [|done|].
  - f_equal. cbn [map app]. rewrite (map_quote_field_plain hs) by done.
    do 2 f_equal. rewrite map_map. apply map_ext. intros row.
    unfold exportCsv_cells. by destruct secondaryEventEnabled.
  - constructor; [done|]. apply Forall_fmap, Forall_true.
    intros row. unfold exportCsv_cells. done.
Qed.

(** * The claims *)




(** Conservation re-run in binary64, where the weights sum to one only up
    to rounding: five and a hundred buckets, totals 7 and 100000. *)
Lemma conservation_binary64_samples :
  sumZ (DistributorPage.distributeIntegerTotal 7
          (DistributorPage.generateWeights (MATH:=replay_binary64) 5
             DistributorPage.balanced (map float_lit sample_draws_100)).1) = 7
  ∧ sumZ (DistributorPage.distributeIntegerTotal 100000
            (DistributorPage.generateWeights (MATH:=replay_binary64) 100
               DistributorPage.moderate (map float_lit sample_draws_100)).1) = 100000
  ∧ sumZ (Page.distribute 100000
            (Page.generateWeights (MATH:=replay_binary64) 100
               Page.high (map float_lit sample_draws_100)).1) = 100000.
Proof. repeat split; vm_compute; reflexivity. Qed.

(** Weight normalisation evaluated in binary64, on a hundred replayed draws
    for both generators: every weight is positive and the weights sum to 1
    within 2^-50.  (The logarithmic style is left out: the replayed source
    has no logarithm.) *)
Lemma generateWeights_binary64_samples :
  let weights :=
    (Page.generateWeights (MATH:=replay_binary64) 100 Page.high
       (map float_lit sample_draws_100)).1 in
  let weights' :=
    (DistributorPage.generateWeights (MATH:=replay_binary64) 100
       DistributorPage.moderate (map float_lit sample_draws_100)).1 in
  forallb (λ w, PrimFloat.ltb (float_of_Z 0) w) weights = true
  ∧ Qle_bool (- (1 # 2 ^ 50)) (exact_sum weights - 1)
    && Qle_bool (exact_sum weights - 1) (1 # 2 ^ 50) = true
  ∧ forallb (λ w, PrimFloat.ltb (float_of_Z 0) w) weights' = true
  ∧ Qle_bool (- (1 # 2 ^ 50)) (exact_sum weights' - 1)
    && Qle_bool (exact_sum weights' - 1) (1 # 2 ^ 50) = true.
Proof. repeat split; vm_compute; reflexivity. Qed.

(** Conservation lost in binary64.  At the total 2^53 - 1 the two floors of
    the largest-remainder allocation already sum to 2^53, one more than the
    total: the shortfall is -1, no unit is handed out and the entries sum to
    the total plus one.  At the total 2^53 + 2, beyond the range of exact
    integers, the pool of the running-remainder allocation loses a unit in
    [remaining -= value]; exact arithmetic keeps it. *)
Lemma conservation_binary64_lost :
  DistributorPage.distributeIntegerTotal 9007199254740991
    (DistributorPage.generateWeights (MATH:=replay_binary64) 2
       DistributorPage.balanced [float_lit (29 # 100); float_lit (762 # 1000)]).1
  = [4292129370295399; 4715069884445593]
  ∧ 4292129370295399 + 4715069884445593 = 9007199254740991 + 1
  ∧ Page.distribute (2 ^ 53 + 2) [float_lit (1 # 10000000000000000); float_lit 1]
    = [1; 2 ^ 53]
  ∧ Page.distribute (2 ^ 53 + 2) [1 # 10000000000000000; 1]%Q = [1; 2 ^ 53 + 1].
Proof. repeat split; vm_compute; reflexivity. Qed.

(** C2: non-negativity of every allocated entry.  The running-remainder
    allocator breaks it on weights its own generator produces: with four
    buckets and a total of 2, three rounded shares of 1 leave the last bucket
    with -1 (exact and binary64 arithmetic agree; so does the all-equal
    vector). *)
Theorem distribute_last_bucket_negative :
  Page.distribute 2
    (Page.generateWeights (MATH:=replay_Q) 4 Page.balanced sample_draws).1
  = [1; 1; 1; -1]
  ∧ Page.distribute 2
      (Page.generateWeights (MATH:=replay_binary64) 4 Page.balanced
         (map float_lit sample_draws)).1
    = [1; 1; 1; -1]
  ∧ Page.distribute 2 [1 # 4; 1 # 4; 1 # 4; 1 # 4]%Q = [1; 1; 1; -1]
  ∧ Page.distribute 2 (map float_lit [1 # 4; 1 # 4; 1 # 4; 1 # 4]%Q) = [1; 1; 1; -1]
  ∧ Page.impressions <$>
      (Page.creatives (MATH:=replay_Q) 4 2 0 0 0 0 Page.balanced false sample_draws).1
    = [1; 1; 1; -1].
Proof. repeat split; vm_compute; reflexivity. Qed.

(** C3, as stated: a bucket with a negative weight gets a share of 0.  With
    total 10 and weights [-0.5, 1.5] both allocators give bucket 0 the share
    -5, in exact and in binary64 arithmetic. *)
Lemma negative_weight_share_not_zero :
  DistributorPage.distributeIntegerTotal 10 [-(1 # 2); 3 # 2]%Q !! 0%nat ≠ Some 0
  ∧ Page.distribute 10 [-(1 # 2); 3 # 2]%Q !! 0%nat ≠ Some 0
  ∧ DistributorPage.distributeIntegerTotal 10 [-(1 # 2); 3 # 2]%Q = [-5; 15]
  ∧ Page.distribute 10 [-(1 # 2); 3 # 2]%Q = [-5; 15]
  ∧ DistributorPage.distributeIntegerTotal 10
      [PrimFloat.opp (float_lit (1 # 2)); float_lit (3 # 2)] = [-5; 15]
  ∧ Page.distribute 10
      [PrimFloat.opp (float_lit (1 # 2)); float_lit (3 # 2)] = [-5; 15].
Proof. repeat split; vm_compute; (reflexivity || discriminate). Qed.

(** C3, amended: a weight vector with a negative entry makes neither
    allocator fail, and the result keeps the length of the weights; but the
    negative weight is not treated as a share of 0.  Neither allocator looks
    at the sign of a weight: for a positive total and a finite raw share the
    largest-remainder allocator gives the bucket the floor of its raw share
    [w * total] or the Number next to that floor plus one, and the
    running-remainder allocator gives it [round(total * w)] unless it is the
    last bucket.  So the share is negative whenever that floor is below -1,
    resp. that rounded share is below 0 (integers exact up to 2^53, as in
    binary64).  Any arithmetic. *)
Theorem negative_weight_share {num : Type} {N : JSNumber num}
    (total : Z) (weights : list num) (j : nat) (w : num) :
  weights !! j = Some w →
  let floor := Math_floor (num_mul w (num_of_Z total)) in
  let rounded := Math_round (num_mul (num_of_Z total) w) in
  length (DistributorPage.distributeIntegerTotal total weights) = length weights
  ∧ length (Page.distribute total weights) = length weights
  ∧ (0 < total → num_finite (num_mul w (num_of_Z total)) = true →
     DistributorPage.distributeIntegerTotal total weights !! j = Some floor
     ∨ DistributorPage.distributeIntegerTotal total weights !! j
       = Some (int_add floor 1))
  ∧ (0 < total → num_finite (num_mul w (num_of_Z total)) = true →
     exact_on (num:=num) within_2_53 → - 2 ^ 53 ≤ floor < -1 →
     ∃ r, DistributorPage.distributeIntegerTotal total weights !! j = Some r
          ∧ r < 0)
  ∧ (0 < total → num_finite (num_mul (num_of_Z total) w) = true →
     (S j < length weights)%nat →
     Page.distribute total weights !! j = Some rounded)
  ∧ (0 < total → num_finite (num_mul (num_of_Z total) w) = true →
     (S j < length weights)%nat → rounded < 0 →
     ∃ r, Page.distribute total weights !! j = Some r ∧ r < 0).
Proof.
  intros Hj floor rounded.
  split; [apply distributeIntegerTotal_length|].
  split; [apply distribute_length|].
  split; [|split; [|split]].
  - intros Ht _.
    destruct (distributeIntegerTotal_lookup total weights j w Ht Hj) as [[|] Hx];
      [right|left]; exact Hx.
  - intros Ht _ Hexact Hfl.
    destruct (distributeIntegerTotal_lookup total weights j w Ht Hj) as [[|] Hx];
      fold floor in Hx; eexists; (split; [exact Hx|]); [|lia].
    unfold int_add. rewrite Hexact by (unfold within_2_53; lia). lia.
  - intros Ht _ HSj. exact (distribute_lookup total weights j w Ht Hj HSj).
  - intros Ht _ HSj Hneg. exists rounded.
    split; [exact (distribute_lookup total weights j w Ht Hj HSj)|done].
Qed.

(** An instance in binary64: the weights [-0.5, 1.5] and the total 10. *)
Lemma negative_weight_share_witness :
  (∃ r, DistributorPage.distributeIntegerTotal 10
          [PrimFloat.opp (float_lit (1 # 2)); float_lit (3 # 2)] !! 0%nat = Some r
        ∧ r < 0)
  ∧ (∃ r, Page.distribute 10
            [PrimFloat.opp (float_lit (1 # 2)); float_lit (3 # 2)] !! 0%nat = Some r
          ∧ r < 0).
Proof.
  destruct (negative_weight_share 10
              [PrimFloat.opp (float_lit (1 # 2)); float_lit (3 # 2)] 0
              (PrimFloat.opp (float_lit (1 # 2))) eq_refl)
    as (_ & _ & _ & H1 & _ & H2).
  split.
  - apply H1; [lia|vm_compute; reflexivity|exact binary64_exact|].
    vm_compute. split; discriminate || reflexivity.
  - apply H2; [lia|vm_compute; reflexivity|simpl; lia|vm_compute; reflexivity].
Defined.

(** C5: [generate(0, profile)] is the empty vector for every profile, and
    [allocate] returns the all-zero vector of the weights' length when the
    total is 0 and when the weights are empty, so [allocate(anything, [])]
    is the empty vector.  Any arithmetic, any random source. *)
Theorem degenerate_inputs {num : Type} {N : JSNumber num} {M : JSMath num}
    (variance : Page.VarianceLevel) (style : DistributorPage.DistributionStyle)
    (s : rng) (total : Z) (weights : list num) :
  (Page.generateWeights 0 variance s).1 = []
  ∧ (DistributorPage.generateWeights 0 style s).1 = []
  ∧ Page.distribute 0 weights = replicate (length weights) 0
  ∧ DistributorPage.distributeIntegerTotal 0 weights = replicate (length weights) 0
  ∧ Page.distribute total ([] : list num) = []
  ∧ DistributorPage.distributeIntegerTotal total ([] : list num) = [].
Proof.
  split; [reflexivity|]. split; [reflexivity|].
  split; [by apply distribute_guard; left|].
  split; [by apply distributeIntegerTotal_guard; left|].
  split.
  - by rewrite distribute_guard by (by right).
  - by rewrite distributeIntegerTotal_guard by (by right).
Qed.

(** C6: the example scenario of the largest-remainder allocator.
    [allocate(10, [0.5, 0.3, 0.2])] is [5, 3, 2]; for [0.34, 0.33, 0.33] the
    floors are [3, 3, 3], the sort puts index 0 first, and the result is
    [4, 3, 3].  In exact arithmetic and in binary64. *)
Theorem largest_remainder_example :
  DistributorPage.distributeIntegerTotal 10 [5 # 10; 3 # 10; 2 # 10]%Q = [5; 3; 2]
  ∧ floors_of 10 [34 # 100; 33 # 100; 33 # 100]%Q = [3; 3; 3]
  ∧ DistributorPage.idx <$> sorted_fracs_of 10 [34 # 100; 33 # 100; 33 # 100]%Q
    = [0; 1; 2]%nat
  ∧ DistributorPage.distributeIntegerTotal 10 [34 # 100; 33 # 100; 33 # 100]%Q
    = [4; 3; 3]
  ∧ DistributorPage.distributeIntegerTotal 10
      (map float_lit [5 # 10; 3 # 10; 2 # 10]%Q) = [5; 3; 2]
  ∧ floors_of 10 (map float_lit [34 # 100; 33 # 100; 33 # 100]%Q) = [3; 3; 3]
  ∧ DistributorPage.idx <$>
      sorted_fracs_of 10 (map float_lit [34 # 100; 33 # 100; 33 # 100]%Q)
    = [0; 1; 2]%nat
  ∧ DistributorPage.distributeIntegerTotal 10
      (map float_lit [34 # 100; 33 # 100; 33 # 100]%Q) = [4; 3; 3].
Proof. repeat split; vm_compute; reflexivity. Qed.

(** C7: the result of [allocate] has the length of the weight vector, for
    every total and every weight vector, of whatever length (0 to 1000
    included).  Any arithmetic. *)
Theorem length_invariant {num : Type} {N : JSNumber num}
    (total : Z) (weights : list num) :
  length (Page.distribute total weights) = length weights
  ∧ length (DistributorPage.distributeIntegerTotal total weights) = length weights.
Proof. split; [apply distribute_length|apply distributeIntegerTotal_length]. Qed.

(** C8: quoting of every field of the exported text.  [exportCsv] joins the
    header labels without quoting them: a primary event label with a comma
    is written bare, and the reader gets two fields back for it. *)
Theorem exportCsv_header_not_quoted :
  Csv.parse <$> Page.exportCsv sample_creatives "Paid, Events" "Second Event" false
  = Some [["Creative"; "Impressions"; "Clicks"; "Installs"; "Paid"; " Events"];
          ["Creative 1"; "10"; "3"; "2"; "1"]]%string
  ∧ exportCsv_headers "Paid, Events" "Second Event" false
    = ["Creative"; "Impressions"; "Clicks"; "Installs"; "Paid, Events"]%string.
Proof. split; vm_compute; reflexivity. Qed.

(** C9: [generate] answers a negative count with the empty vector and
    [allocate] a negative total with the all-zero vector; the [for] loops
    run over the indices below [count] or [weights.length], and the [while]
    loop of [distributeIntegerTotal] leaves with [i], its number of passes,
    at most [weights.length], whatever the pool [remainder] it starts with.
    Any arithmetic, any random source. *)
Theorem totality_and_clamping {num : Type} {N : JSNumber num} {M : JSMath num}
    (count total : Z) (variance : Page.VarianceLevel)
    (style : DistributorPage.DistributionStyle) (s : rng) (weights : list num) :
  count < 0 → total < 0 →
  Page.generateWeights count variance s = ([], s)
  ∧ DistributorPage.generateWeights count style s = ([], s)
  ∧ Page.distribute total weights = replicate (length weights) 0
  ∧ DistributorPage.distributeIntegerTotal total weights = replicate (length weights) 0
  ∧ (∀ (total' : Z) (weights' : list num) (remainder' : Z),
       (DistributorPage.i
          (DistributorPage.award (sorted_fracs_of total' weights')
             {| DistributorPage.result := floors_of total' weights';
                DistributorPage.remainder := remainder';
                DistributorPage.i := 0 |})
        ≤ length weights')%nat).
Proof.
  intros Hc Ht.
  assert ((count <=? 0) = true) as Hle by (apply Z.leb_le; lia).
  split; [unfold Page.generateWeights; by rewrite Hle|].
  split; [unfold DistributorPage.generateWeights; by rewrite Hle|].
  split; [apply distribute_guard; left; lia|].
  split; [apply distributeIntegerTotal_guard; left; lia|].
  intros total' weights' remainder'.
  etrans; [apply award_i_bound; simpl; lia|].
  by rewrite sorted_fracs_of_length.
Qed.

Lemma totality_and_clamping_witness :
  -3 < 0 ∧ -7 < 0
  ∧ Page.generateWeights (MATH:=replay_Q) (-3) Page.high [1 # 2]%Q = ([], [1 # 2]%Q)
  ∧ DistributorPage.generateWeights (MATH:=replay_Q) (-3) DistributorPage.high [1 # 2]%Q
    = ([], [1 # 2]%Q)
  ∧ Page.distribute (-7) [1 # 2; 1 # 2]%Q = replicate 2 0
  ∧ DistributorPage.distributeIntegerTotal (-7) [1 # 2; 1 # 2]%Q = replicate 2 0
  ∧ (∀ (total' : Z) (weights' : list Q) (remainder' : Z),
       (DistributorPage.i
          (DistributorPage.award (sorted_fracs_of total' weights')
             {| DistributorPage.result := floors_of total' weights';
                DistributorPage.remainder := remainder';
                DistributorPage.i := 0 |})
        ≤ length weights')%nat).
Proof.
  split; [lia|]. split; [lia|].
  apply (totality_and_clamping (M:=replay_Q) (-3) (-7) Page.high
           DistributorPage.high [1 # 2]%Q [1 # 2; 1 # 2]%Q); lia.
Defined.

(** C10, as stated: every bucket holds the floor of its raw share or that
    floor plus one.  In binary64, with the total 3 * 10^16 and the two
    balanced weights drawn from 0 and 0.875, the floors are even numbers
    above 2^53 and sum to the total minus 4; [result[idx] += 1] rounds
    floor + 1 to floor + 2, and both buckets end two units above their
    floor. *)
Lemma largest_remainder_bucket_bound_fails :
  floors_of 30000000000000000
    (DistributorPage.generateWeights (MATH:=replay_binary64) 2
       DistributorPage.balanced [float_lit 0; float_lit (875 # 1000)]).1
  = [13670886075949366; 16329113924050630]
  ∧ DistributorPage.distributeIntegerTotal 30000000000000000
      (DistributorPage.generateWeights (MATH:=replay_binary64) 2
         DistributorPage.balanced [float_lit 0; float_lit (875 # 1000)]).1
    = [13670886075949366 + 2; 16329113924050630 + 2].
Proof. split; vm_compute; reflexivity. Qed.

(** C10, amended: under the largest-remainder allocator with a positive
    total every bucket with a finite raw share [weights[i] * total]
    receives the floor of that share, or the Number next to that floor plus
    one: no bucket is served twice.  That Number is the floor plus one when
    the floor is between -2^53 and 2^53 - 1 (integers exact up to 2^53, as
    in binary64).  Any arithmetic, and any weights, the non-negative ones
    included. *)
Theorem largest_remainder_bucket_bound {num : Type} {N : JSNumber num}
    (total : Z) (weights : list num) (j : nat) (w : num) :
  0 < total → weights !! j = Some w →
  num_finite (num_mul w (num_of_Z total)) = true →
  let floor := Math_floor (num_mul w (num_of_Z total)) in
  (DistributorPage.distributeIntegerTotal total weights !! j = Some floor
   ∨ DistributorPage.distributeIntegerTotal total weights !! j
     = Some (int_add floor 1))
  ∧ (exact_on (num:=num) within_2_53 → - 2 ^ 53 ≤ floor < 2 ^ 53 →
     DistributorPage.distributeIntegerTotal total weights !! j = Some floor
     ∨ DistributorPage.distributeIntegerTotal total weights !! j
       = Some (floor + 1)).
Proof.
  intros Ht Hj _ floor.
  destruct (distributeIntegerTotal_lookup total weights j w Ht Hj) as [[|] Hx];
    fold floor in Hx.
  - split; [by right|]. intros Hexact Hfl. right.
    rewrite Hx. unfold int_add. by rewrite Hexact by (unfold within_2_53; lia).
  - split; [by left|]. intros _ _. by left.
Qed.

(** An instance in binary64: the weights [0.34, 0.33, 0.33], total 10. *)
Lemma largest_remainder_bucket_bound_witness :
  DistributorPage.distributeIntegerTotal 10
    (map float_lit [34 # 100; 33 # 100; 33 # 100]%Q) !! 0%nat = Some 3
  ∨ DistributorPage.distributeIntegerTotal 10
      (map float_lit [34 # 100; 33 # 100; 33 # 100]%Q) !! 0%nat = Some (3 + 1).
Proof.
  destruct (largest_remainder_bucket_bound 10
              (map float_lit [34 # 100; 33 # 100; 33 # 100]%Q) 0
              (float_lit (34 # 100))) as [_ H];
    [lia|reflexivity|vm_compute; reflexivity|].
  apply H; [exact binary64_exact|vm_compute; split; discriminate || reflexivity].
Defined.

(** * Further properties of the code *)

(** ** Random draws of [generateWeights] *)

Section draws.
Context {num : Type} {NUM : JSNumber num} {MATH : JSMath num}.

Lemma DistributorPage_draw_loop_state (style : DistributorPage.DistributionStyle)
    (l : list nat) (st : list num * rng) :
  (foldl (λ st (_ : nat), DistributorPage.draw_weight style st) st l).2
  = Nat.iter (length l) (λ s, (Math_random s).2) st.2.
Proof.
  revert st. induction l as [|k l IH]; intros st; [reflexivity|].
  cbn [foldl length]. rewrite IH, Nat.iter_succ_r. f_equal.
  destruct st as [raw s]. unfold DistributorPage.draw_weight. cbn [snd].
  destruct style; destruct (Math_random s) as [r s']; reflexivity.
Qed.

Lemma Page_draw_loop_state (factor : num) (l : list nat) (st : list num * rng) :
  (foldl (λ '(weights, s) (_ : nat),
            let '(r, s') := Math_random s in
            let w := num_add (num_lit 1) (num_mul r factor) in
            (weights ++ [w], s')) st l).2
  = Nat.iter (length l) (λ s, (Math_random s).2) st.2.
Proof.
  revert st. induction l as [|k l IH]; intros st; [reflexivity|].
  cbn [foldl length]. rewrite IH, Nat.iter_succ_r. f_equal.
  destruct st as [weights s]. cbn [snd].
  destruct (Math_random s) as [r s']; reflexivity.
Qed.

(** X1: [generateWeights] returns as many weights as the count asks for
    (none for a count of 0 or less) and calls [Math.random] once per weight:
    the random source is left in the state reached after that many draws.
    Both variants, any arithmetic. *)
Theorem generateWeights_draws (count : Z) (variance : Page.VarianceLevel)
    (style : DistributorPage.DistributionStyle) (s : rng) :
  length (Page.generateWeights count variance s).1 = Z.to_nat count
  ∧ (Page.generateWeights count variance s).2
    = Nat.iter (Z.to_nat count) (λ s, (Math_random s).2) s
  ∧ length (DistributorPage.generateWeights count style s).1 = Z.to_nat count
  ∧ (DistributorPage.generateWeights count style s).2
    = Nat.iter (Z.to_nat count) (λ s, (Math_random s).2) s.
Proof.
  split; [apply Page_generateWeights_length|].
  split; [|split; [apply DistributorPage_generateWeights_length|]].
  - unfold Page.generateWeights.
    destruct (Z.leb_spec count 0) as [Hc|Hc].
    + replace (Z.to_nat count) with 0%nat by lia. reflexivity.
    + match goal with |- context [foldl ?f ?a ?l] =>
        pose proof (Page_draw_loop_state
                      match variance with
                      | Page.balanced => num_lit (2 # 10)
                      | Page.medium => num_lit 1
                      | Page.high => num_lit 3
                      end l a) as Hst;
        destruct (foldl f a l) as [weights s']
      end.
      simpl in *. by rewrite Hst, length_seq.
  - unfold DistributorPage.generateWeights.
    destruct (Z.leb_spec count 0) as [Hc|Hc].
    + replace (Z.to_nat count) with 0%nat by lia. reflexivity.
    + pose proof (DistributorPage_draw_loop_state style
                    (seq 0 (Z.to_nat count)) ([], s)) as Hst.
      destruct (foldl _ _ _) as [raw s']. simpl in *.
      by rewrite Hst, length_seq.
Qed.
End draws.

(** X4: [distributeIntegerTotal] never allocates a negative share when the
    total and the weights are non-negative.  Exact arithmetic. *)
Theorem distributeIntegerTotal_nonnegative (total : Z) (weights : list Q) (j : nat) (r : Z) :
  0 ≤ total → Forall (λ w, 0 <= w)%Q weights →
  DistributorPage.distributeIntegerTotal total weights !! j = Some r →
  0 ≤ r.
Proof.
  intros Ht Hw Hr.
  pose proof (distributeIntegerTotal_Q_nonneg total weights Ht Hw) as Hall.
  by apply (Forall_lookup_1 _ _ _ _ Hall Hr).
Qed.

(** X8: with a single bucket the whole total goes to it, and a total of 0
    or less gives 0: [distribute] whatever the weight is and in any
    arithmetic, [distributeIntegerTotal] for the weight 1 in exact
    arithmetic. *)
Theorem single_bucket {num : Type} {N : JSNumber num} (total : Z) (w : num) :
  Page.distribute total [w] = [Z.max 0 total]
  ∧ DistributorPage.distributeIntegerTotal total [1%Q] = [Z.max 0 total].
Proof.
  destruct (Z.le_gt_cases total 0) as [Hle|Hgt].
  - rewrite distribute_guard, distributeIntegerTotal_guard by (by left).
    replace (Z.max 0 total) with 0 by lia. done.
  - replace (Z.max 0 total) with total by lia. split.
    + rewrite (distribute_closed_form total [] w) by lia. reflexivity.
    + rewrite (distributeIntegerTotal_closed_form (λ _, True) Q_exact convex_True)
        by (done || lia).
      assert (floors_of total [1%Q] = [total]) as ->.
      { unfold floors_of. cbn [map]. f_equal.
        change (Math_floor (num_mul 1%Q (num_of_Z total)))
          with (Qfloor (1 * inject_Z total)).
        rewrite Qmult_1_l. apply Qfloor_Z. }
      rewrite sumZ_cons, sumZ_nil.
      replace (Z.to_nat (total - (total + 0))) with 0%nat by lia.
      reflexivity.
Qed.

(** ** The tables of the two pages *)

Section handleGenerate_facts.
Context {num : Type} {NUM : JSNumber num} {MATH : JSMath num}.

(** X11: [handleGenerate] of part_000 refuses a count that is not finite,
    not positive or not an integer, and refuses any negative total: it sets
    an error message, keeps the rows already shown, and draws no random
    number.  Any arithmetic. *)
Theorem handleGenerate_rejects (creativeCount : DistributorPage.number)
    (totalImpressions totalInstalls totalPaidEvents : Z)
    (style : DistributorPage.DistributionStyle)
    (st : DistributorPage.page_state) (s : rng) :
  DistributorPage.Number_isFinite creativeCount = false
  ∨ DistributorPage.number_le0 creativeCount = true
  ∨ DistributorPage.Number_isInteger creativeCount = false
  ∨ totalImpressions < 0 ∨ totalInstalls < 0 ∨ totalPaidEvents < 0 →
  ∃ message : string,
    DistributorPage.handleGenerate creativeCount totalImpressions totalInstalls
      totalPaidEvents style st s
    = ({| DistributorPage.rows := DistributorPage.rows st;
          DistributorPage.error := Some message |}, s).
Proof.
  intros Hbad. unfold DistributorPage.handleGenerate.
  destruct (negb (DistributorPage.Number_isFinite creativeCount)
            || DistributorPage.number_le0 creativeCount
            || negb (DistributorPage.Number_isInteger creativeCount)) eqn:Hcount;
    [by eexists|].
  apply orb_false_iff in Hcount as [Hcount Hint].
  apply orb_false_iff in Hcount as [Hfin Hle].
  apply negb_false_iff in Hfin, Hint.
  destruct Hbad as [?|[?|[?|Htot]]]; try congruence.
  assert ((totalImpressions <? 0) || (totalInstalls <? 0) || (totalPaidEvents <? 0) = true)
    as ->; [|by eexists].
  rewrite !orb_true_iff, !Z.ltb_lt. tauto.
Qed.
End handleGenerate_facts.

(** ** The exports, field by field and end to end *)


(** X15: [exportCsv] produces nothing for an empty table; for a table with
    rows and header labels free of commas, double quotes and line feeds the
    reader recovers the header row and one record per creative, with the
    secondary events as a sixth field exactly when they are enabled. *)
Theorem exportCsv_reads_back (r : Page.CreativeRow) (creatives : list Page.CreativeRow)
    (primaryEventLabel secondaryEventLabel : string) (secondaryEventEnabled : bool) :
  Forall (λ s, plain s = true)
    (exportCsv_headers primaryEventLabel secondaryEventLabel secondaryEventEnabled) →
  Page.exportCsv [] primaryEventLabel secondaryEventLabel secondaryEventEnabled = None
  ∧ Csv.parse <$>
      Page.exportCsv (r :: creatives) primaryEventLabel secondaryEventLabel
        secondaryEventEnabled
    = Some (exportCsv_headers primaryEventLabel secondaryEventLabel secondaryEventEnabled
            :: map (exportCsv_cells secondaryEventEnabled) (r :: creatives))
  ∧ Forall (λ record, length record = if secondaryEventEnabled then 6%nat else 5%nat)
      (map (exportCsv_cells secondaryEventEnabled) (r :: creatives)).
Proof.
  intros Hplain. split; [reflexivity|]. split; [by apply exportCsv_roundtrip|].
  apply Forall_fmap, Forall_true. intros row. by destruct secondaryEventEnabled.
Qed.

(** X16: an empty primary event label is dropped from the header row of
    [exportCsv] (the labels go through [filter(Boolean)]), while every
    record keeps its five cells: the header is then one column short of
    the records below it. *)
Theorem exportCsv_empty_label (r : Page.CreativeRow) (creatives : list Page.CreativeRow)
    (secondaryEventLabel : string) :
  Csv.parse <$> Page.exportCsv (r :: creatives) EmptyString secondaryEventLabel false
  = Some (["Creative"; "Impressions"; "Clicks"; "Installs"]%string
          :: map (exportCsv_cells false) (r :: creatives))
  ∧ Forall (λ record, length record = 5%nat)
      (map (exportCsv_cells false) (r :: creatives)).
Proof.
  split.
  - rewrite exportCsv_roundtrip; [reflexivity|done|].
    repeat constructor.
  - apply Forall_fmap, Forall_true. done.
Qed.

(** ** Instances of the properties above *)

Lemma distributeIntegerTotal_nonnegative_witness :
  0 ≤ 10 ∧ Forall (λ w, 0 <= w)%Q [18 # 100; 27 # 100; 55 # 100]%Q
  ∧ DistributorPage.distributeIntegerTotal 10 [18 # 100; 27 # 100; 55 # 100]%Q !! 0%nat
    = Some 2
  ∧ 0 ≤ 2.
Proof.
  assert (Forall (λ w, 0 <= w)%Q [18 # 100; 27 # 100; 55 # 100]%Q) as Hw
    by (repeat constructor; discriminate).
  split; [lia|]. split; [exact Hw|]. split; [vm_compute; reflexivity|].
  apply (distributeIntegerTotal_nonnegative 10 [18 # 100; 27 # 100; 55 # 100]%Q 0 2);
    [lia|exact Hw|vm_compute; reflexivity].
Defined.

Lemma handleGenerate_rejects_witness :
  (DistributorPage.Number_isFinite (DistributorPage.Finite (5 # 2)) = false
   ∨ DistributorPage.number_le0 (DistributorPage.Finite (5 # 2)) = true
   ∨ DistributorPage.Number_isInteger (DistributorPage.Finite (5 # 2)) = false
   ∨ 10 < 0 ∨ 3 < 0 ∨ 1 < 0)
  ∧ ∃ message : string,
      DistributorPage.handleGenerate (MATH:=replay_Q) (DistributorPage.Finite (5 # 2))
        10 3 1 DistributorPage.balanced sample_state sample_draws
      = ({| DistributorPage.rows := DistributorPage.rows sample_state;
            DistributorPage.error := Some message |}, sample_draws).
Proof.
  assert (DistributorPage.Number_isInteger (DistributorPage.Finite (5 # 2)) = false)
    as Hint by reflexivity.
  split; [right; right; left; exact Hint|].
  apply (handleGenerate_rejects (MATH:=replay_Q) (DistributorPage.Finite (5 # 2))
           10 3 1 DistributorPage.balanced sample_state sample_draws).
  right; right; left; exact Hint.
Defined.

Lemma exportCsv_reads_back_witness :
  Forall (λ s, plain s = true) (exportCsv_headers "Paid Events" "Second Event" true)
  ∧ Page.exportCsv [] "Paid Events" "Second Event" true = None
  ∧ Csv.parse <$> Page.exportCsv (sample_row :: []) "Paid Events" "Second Event" true
    = Some (exportCsv_headers "Paid Events" "Second Event" true
            :: map (exportCsv_cells true) (sample_row :: []))
  ∧ Forall (λ record, length record = if true then 6%nat else 5%nat)
      (map (exportCsv_cells true) (sample_row :: [])).
Proof.
  assert (Forall (λ s, plain s = true)
            (exportCsv_headers "Paid Events" "Second Event" true)) as Hplain
    by (repeat constructor).
  split; [exact Hplain|].
  apply (exportCsv_reads_back sample_row [] "Paid Events" "Second Event" true Hplain).
Defined.

(** ** More on the two allocators *)


(** X17: for a total from 1 to 2^53 and at least one bucket, the raw shares
    being finite and their floors non-negative with a sum of at most 2^53,
    the result of [distributeIntegerTotal] sums to the total exactly when
    the shortfall [total - sum(floors)] lies between 0 and
    [weights.length]: the loop hands out at most one unit per bucket and
    none when the floors exceed the total.  Any weights, any arithmetic
    whose integers are exact up to 2^53, as in binary64. *)
Theorem distributeIntegerTotal_conserves_iff {num : Type} {N : JSNumber num}
    (total : Z) (weights : list num) :
  exact_on (num:=num) within_2_53 →
  0 < total ≤ 2 ^ 53 → weights ≠ [] → floors_within total weights →
  (sumZ (DistributorPage.distributeIntegerTotal total weights) = total
   ↔ 0 ≤ total - sumZ (floors_of total weights) ≤ Z.of_nat (length weights)).
Proof.
  intros Hexact Ht Hne (_ & Hfl & Hsum). by apply distributeIntegerTotal_sum_within.
Qed.

(** X19: [distribute] never reads the weight of the last bucket: replacing
    it by any other number leaves the whole result unchanged.  Any
    arithmetic, any total. *)
Theorem distribute_ignores_last_weight {num : Type} {N : JSNumber num}
    (total : Z) (weights : list num) (w w' : num) :
  Page.distribute total (weights ++ [w]) = Page.distribute total (weights ++ [w']).
Proof.
  destruct (Z.le_gt_cases total 0) as [Hle|Hgt].
  - rewrite !distribute_guard by (by left). by rewrite !length_app.
  - by rewrite !distribute_closed_form by lia.
Qed.


(** In binary64, the doubles 0.145 and 0.855 and the total 100: the floors
    14 and 85 fall one unit short. *)
Lemma distributeIntegerTotal_conserves_iff_witness :
  sumZ (DistributorPage.distributeIntegerTotal 100
          [float_lit (145 # 1000); float_lit (855 # 1000)]) = 100
  ↔ 0 ≤ 100 - sumZ (floors_of 100 [float_lit (145 # 1000); float_lit (855 # 1000)])
      ≤ Z.of_nat 2.
Proof.
  apply (distributeIntegerTotal_conserves_iff 100
           [float_lit (145 # 1000); float_lit (855 # 1000)] binary64_exact);
    [lia|done|].
  split; [|split]; [| |vm_compute; discriminate];
    vm_compute; repeat (constructor; [vm_compute; reflexivity || discriminate|]);
    constructor.
Defined.
